(** * Incremental nonbonded energy evaluation (Faunus, [src/energy.h])

    A shallow embedding of [Faunus::Energy::Nonbonded]: the pair energy
    [i2i], the group-to-group sum [g2g], the index-list sum [index2index]
    and the change-driven evaluator [energy].

    - [double] is binary64: Rocq's primitive [float] with its IEEE
      addition, so every sum below is the left-to-right accumulation
      [u += x] of the source, never a reassociated one.
    - [int] is [Z]; the conversion [int(oldspc.groups.size())] is written
      out as a 32-bit two's complement wrap.
    - A reference to a space ([const Tspace &spc]) is a location of the
      world the evaluator runs in; the two stores and the change set are
      objects of that world, because [energy] receives them by mutable
      reference.
    - A call of the pair potential is an observable event: it is appended
      to the world's call log, which plays the part of a call counter
      placed on the pair potential.
    - [operator[]] of [std::vector] outside its bounds has no defined
      result; the embedding makes it a fault ([None]). *)

From Stdlib Require Import String Ascii.
From Stdlib Require Import ZArith List Bool Lia Floats.
Import ListNotations.

Local Open Scope Z_scope.

(** ** Data model *)

(** A position or separation vector ([Point]). *)
Record Point : Set := mkPoint { x : float; y : float; z : float }.

(** Modelled from the spec: the particle type is declared in [core.h],
    which is not part of the sources at hand.  The evaluator reads [pos];
    everything else is payload handed to the pair potential. *)
Record Particle : Set := mkParticle {
  pos : Point;      (* position *)
  id : Z;           (* type identifier *)
  charge : float    (* potential-specific attribute *)
}.

(** Modelled from the spec: the group type is declared in [core.h].  The
    source iterates a group with a range-for whose elements have a [pos],
    so a group is the sequence of particles it ranges over. *)
Definition Group : Set := list Particle.

(** [std::vector<int>] of particle indices. *)
Definition Tindex : Set := list Z.

Module Space.
(** Modelled from the spec: [Tspace] is declared in [core.h].  The
    evaluator uses [geo.vdist], the particle vector [p] and the group
    vector [groups]. *)
Record t : Type := mk {
  vdist : Point -> Point -> Point;   (* geo.vdist *)
  p : list Particle;
  groups : list Group
}.
End Space.

Module Change.
(** Modelled from the spec: [Tspace::Tchange] is declared in [core.h].
    One entry per touched group: its index in the group vector and the
    particle indices changed within it. *)
Record data : Set := mkData {
  index : Z;
  atoms : list Z
}.

Record t : Set := mk { groups : list data }.

(** [change.empty()]: no group was touched. *)
Definition empty (c : t) : bool :=
  match groups c with [] => true | _ :: _ => false end.

(** [change.touchedGroupIndex()]: the indices of the touched groups, in
    the order of [groups]. *)
Definition touchedGroupIndex (c : t) : list Z := map index (groups c).
End Change.

(** [struct Nonbonded]: its only data member is the pair potential, a
    function of two particles and their separation vector. *)
Record Nonbonded : Type := mkNonbonded {
  pairpot : Particle -> Particle -> Point -> float
}.

(** ** The world and its call log *)

(** The two spaces [energy] holds references to. *)
Inductive SpaceRef : Set := OldSpc | NewSpc.

Definition SpaceRef_eqb (r1 r2 : SpaceRef) : bool :=
  match r1, r2 with
  | OldSpc, OldSpc | NewSpc, NewSpc => true
  | _, _ => false
  end.

(** One evaluation of the pair potential: the space it was made for, the
    two particles and the separation handed over. *)
Record Call : Set := mkCall {
  call_spc : SpaceRef;
  call_a : Particle;
  call_b : Particle;
  call_r : Point
}.

Record World : Type := mkWorld {
  oldspc : Space.t;
  newspc : Space.t;
  change : Change.t;
  calls : list Call
}.

Definition space_of (r : SpaceRef) (w : World) : Space.t :=
  match r with OldSpc => oldspc w | NewSpc => newspc w end.

(** The world after the pair-potential calls [tr] have been made. *)
Definition record (w : World) (tr : list Call) : World :=
  mkWorld (oldspc w) (newspc w) (change w) (calls w ++ tr).

(** The same world with another call history. *)
Definition with_calls (w : World) (log : list Call) : World :=
  mkWorld (oldspc w) (newspc w) (change w) log.

(** ** Computations: world passing with faults *)

Definition M (A : Type) : Type := World -> option A * World.

Definition ret {A : Type} (a : A) : M A := fun w => (Some a, w).

Definition bind {A B : Type} (m : M A) (f : A -> M B) : M B :=
  fun w =>
    match m w with
    | (Some a, w') => f a w'
    | (None, w') => (None, w')
    end.

Notation "x <- m ;; k" := (bind m (fun x => k))
  (at level 61, m at next level, right associativity).

(** An access outside a container. *)
Definition fault {A : Type} : M A := fun w => (None, w).

Definition read_space (r : SpaceRef) : M Space.t :=
  fun w => (Some (space_of r w), w).

Definition read_change : M Change.t := fun w => (Some (change w), w).

Definition log_call (c : Call) : M unit := fun w => (Some tt, record w [c]).

Definition of_option {A : Type} (o : option A) : M A :=
  match o with Some a => ret a | None => fault end.

(** A range-for over [l] whose body updates the local accumulator. *)
Fixpoint for_each {A S : Type} (l : list A) (body : A -> S -> M S) (s : S) : M S :=
  match l with
  | [] => ret s
  | a :: l' => s' <- body a s ;; for_each l' body s'
  end.

(** ** Containers and standard algorithms *)

(** [v[i]] for an [int] index: the index converts to an unsigned size, so
    a negative one is as far out of range as one beyond the end. *)
Definition at_index {A : Type} (v : list A) (i : Z) : option A :=
  if i <? 0 then None else nth_error v (Z.to_nat i).

(** [int(n)] for a container size [n]. *)
Definition int_of_size (n : nat) : Z :=
  (Z.of_nat n + 2147483648) mod 4294967296 - 2147483648.

(** [view::ints(from, to)]: the integers [from <= i < to].  The view asks
    for [from <= to]; the list is empty otherwise, a case that does not
    arise for the sizes the claims are stated for (those that fit an
    [int]). *)
Definition ints (from to : Z) : list Z :=
  map (fun k => from + Z.of_nat k) (seq 0 (Z.to_nat (to - from))).

(** The loop of [std::lower_bound] on the range [[first, first + len)]. *)
Fixpoint lower_bound_loop (fuel : nat) (v : list Z) (first len : nat) (val : Z) : nat :=
  match fuel with
  | O => first
  | S fuel' =>
      match len with
      | O => first
      | S _ =>
          let half := Nat.div2 len in
          let middle := (first + half)%nat in
          if nth middle v 0 <? val
          then lower_bound_loop fuel' v (middle + 1)%nat (len - half - 1)%nat val
          else lower_bound_loop fuel' v first half val
      end
  end.

Definition lower_bound (v : list Z) (val : Z) : nat :=
  lower_bound_loop (length v) v 0%nat (length v) val.

(** [std::binary_search(v.begin(), v.end(), val)]. *)
Definition binary_search (v : list Z) (val : Z) : bool :=
  let i := lower_bound v val in
  (i <? length v)%nat && negb (val <? nth i v 0).

(** ** The evaluator *)

Definition group_at (r : SpaceRef) (i : Z) : M Group :=
  spc <- read_space r ;; of_option (at_index (Space.groups spc) i).

Definition particle_at (r : SpaceRef) (i : Z) : M Particle :=
  spc <- read_space r ;; of_option (at_index (Space.p spc) i).

(** [i2i]: the pair potential at the geometry's separation of the two
    positions. *)
Definition i2i (nb : Nonbonded) (r : SpaceRef) (a b : Particle) : M float :=
  spc <- read_space r ;;
  let sep := Space.vdist spc (pos a) (pos b) in
  _ <- log_call (mkCall r a b sep) ;;
  ret (pairpot nb a b sep).

(** [g2g]: the double loop over two groups. *)
Definition g2g (nb : Nonbonded) (r : SpaceRef) (g1 g2 : Group) : M float :=
  for_each g1 (fun i u =>
    for_each g2 (fun j u =>
      e <- i2i nb r i j ;; ret (u + e)%float) u) 0%float.

(** [index2index]: the double loop over two index lists into [spc.p]. *)
Definition index2index (nb : Nonbonded) (r : SpaceRef) (index1 index2 : Tindex) : M float :=
  for_each index1 (fun i u =>
    for_each index2 (fun j u =>
      a <- particle_at r i ;;
      b <- particle_at r j ;;
      e <- i2i nb r a b ;; ret (u + e)%float) u) 0%float.

(** The indices of the static groups: [view::ints(0, n)] without those
    that [std::binary_search] finds in [moved]. *)
Definition fixed_view (moved : list Z) (n : Z) : list Z :=
  filter (fun i => negb (binary_search moved i)) (ints 0 n).

(** The body of the inner loop of [energy] (moved<->static): the group
    pair [(d, i)] in the old and in the new space. *)
Definition moved_static (nb : Nonbonded) (d i : Z) (u : float * float) : M (float * float) :=
  gd <- group_at OldSpc d ;;
  gi <- group_at OldSpc i ;;
  eold <- g2g nb OldSpc gd gi ;;
  gd' <- group_at NewSpc d ;;
  gi' <- group_at NewSpc i ;;
  enew <- g2g nb NewSpc gd' gi' ;;
  ret ((fst u + eold)%float, (snd u + enew)%float).

(** [energy]: the old and the new energy of a change. *)
Definition energy (nb : Nonbonded) : M (float * float) :=
  ch <- read_change ;;
  if Change.empty ch then ret (0%float, 0%float)
  else
    let moved := Change.touchedGroupIndex ch in
    old <- read_space OldSpc ;;
    let fixed := fixed_view moved (int_of_size (length (Space.groups old))) in
    for_each (Change.groups ch) (fun d u =>
      for_each fixed (fun i u => moved_static nb (Change.index d) i u) u)
      (0%float, 0%float).

(** A call of [energy] on two stores and a change set, with a fresh call
    log. *)
Definition evaluateChange (nb : Nonbonded) (old new : Space.t) (ch : Change.t)
  : option (float * float) * World :=
  energy nb (mkWorld old new ch []).

(** ** What the loops compute, written without the world *)

(** A sum accumulated from zero, left to right. *)
Definition fsum (l : list float) : float := fold_left PrimFloat.add l 0%float.

(** The energy and the logged call of one pair in the space [spc]. *)
Definition pair_energy (nb : Nonbonded) (spc : Space.t) (ab : Particle * Particle) : float :=
  pairpot nb (fst ab) (snd ab) (Space.vdist spc (pos (fst ab)) (pos (snd ab))).

Definition pair_call (r : SpaceRef) (spc : Space.t) (ab : Particle * Particle) : Call :=
  mkCall r (fst ab) (snd ab) (Space.vdist spc (pos (fst ab)) (pos (snd ab))).

(** The cross product of two groups, first group outermost. *)
Definition group_energy (nb : Nonbonded) (spc : Space.t) (g1 g2 : Group) : float :=
  fsum (map (pair_energy nb spc) (list_prod g1 g2)).

Definition group_calls (r : SpaceRef) (spc : Space.t) (g1 g2 : Group) : list Call :=
  map (pair_call r spc) (list_prod g1 g2).

(** The group stored at a valid index (no particles elsewhere). *)
Definition group_of (spc : Space.t) (i : Z) : Group :=
  match at_index (Space.groups spc) i with Some g => g | None => [] end.

Definition mem (i : Z) (l : list Z) : bool := existsb (Z.eqb i) l.

(** The fixed groups of the spec: the indices of [0 .. n-1] that are not
    touched. *)
Definition untouched (moved : list Z) (n : Z) : list Z :=
  filter (fun i => negb (mem i moved)) (ints 0 n).

(** The group-pair term and the calls of a (touched, fixed) index pair. *)
Definition term (nb : Nonbonded) (spc : Space.t) (df : Z * Z) : float :=
  group_energy nb spc (group_of spc (fst df)) (group_of spc (snd df)).

Definition term_calls (r : SpaceRef) (spc : Space.t) (df : Z * Z) : list Call :=
  group_calls r spc (group_of spc (fst df)) (group_of spc (snd df)).

(** The calls of one iteration of the inner loop of [energy]: the old
    store first, then the new one. *)
Definition step_calls (old new : Space.t) (df : Z * Z) : list Call :=
  term_calls OldSpc old df ++ term_calls NewSpc new df.

(** The (touched, static) index pairs [energy] visits, in its order. *)
Definition visited (old : Space.t) (ch : Change.t) : list (Z * Z) :=
  let moved := Change.touchedGroupIndex ch in
  list_prod moved (fixed_view moved (int_of_size (length (Space.groups old)))).

(** The (touched, fixed) index pairs of the spec in a system of [n]
    groups. *)
Definition moved_fixed_pairs (moved : list Z) (n : nat) : list (Z * Z) :=
  list_prod moved (untouched moved (Z.of_nat n)).

(** The store a space reference stands for in a call on [old] and [new]. *)
Definition pick (old new : Space.t) (r : SpaceRef) : Space.t :=
  match r with OldSpc => old | NewSpc => new end.

(** The calls made for one of the two spaces. *)
Definition calls_for (r : SpaceRef) (tr : list Call) : list Call :=
  filter (fun c => SpaceRef_eqb (call_spc c) r) tr.

(** Every index addresses an element of a container of [n] elements. *)
Definition in_range (n : nat) (l : list Z) : bool :=
  forallb (fun i => (0 <=? i) && (i <? Z.of_nat n)) l.

(** Non-decreasing order, and the change-set invariant: increasing order
    (sorted and unique). *)
Fixpoint sorted (l : list Z) : bool :=
  match l with
  | [] => true
  | a :: l' => match l' with [] => true | b :: _ => (a <=? b) && sorted l' end
  end.

Fixpoint sorted_unique (l : list Z) : bool :=
  match l with
  | [] => true
  | a :: l' => match l' with [] => true | b :: _ => (a <? b) && sorted_unique l' end
  end.

(** The stores and the change set of two worlds are the same objects. *)
Definition same_objects (w0 w : World) : Prop :=
  oldspc w = oldspc w0 /\ newspc w = newspc w0 /\ change w = change w0.

(** A computation that only reads the stores and the change set: it
    appends to the call log and nothing else, and neither its result nor
    the calls it makes depend on the calls made before. *)
Definition frames {A : Type} (m : M A) : Prop :=
  forall w, exists tr,
    snd (m w) = record w tr /\
    forall log, m (with_calls w log) = (fst (m w), record (with_calls w log) tr).

(** ** The drift tracker *)

Module EnergyDrift.
(** Modelled from the spec: the class [EnergyDrift] is used by
    [playground/stenqvist/nemo.cpp] and declared elsewhere.  Its state
    is the running total; [applyDelta] is the update on an accepted
    move, [running += deltaNew - deltaOld]. *)
Record t : Set := mk { running : float }.

Definition init (u : float) : t := mk u.

Definition applyDelta (deltaOld deltaNew : float) (s : t) : t :=
  mk (running s + (deltaNew - deltaOld))%float.
End EnergyDrift.

(** ** What the claims speak of *)

(** The result of a call and the pair-potential calls it made. *)
Definition result_of {A : Type} (out : option A * World) : option A := fst out.
Definition calls_of {A : Type} (out : option A * World) : list Call := calls (snd out).

(** A call turned down before any pair evaluation. *)
Definition rejected {A : Type} (out : option A * World) : Prop :=
  result_of out = None /\ calls_of out = [].

(** The change-set invariant of the data model against a store of [n]
    groups: touched indices in range, sorted and unique. *)
Definition valid_change (n : nat) (ch : Change.t) : bool :=
  in_range n (Change.touchedGroupIndex ch) && sorted_unique (Change.touchedGroupIndex ch).

(** Every index is smaller than the size [n]. *)
Definition below (n : nat) (l : list Z) : bool :=
  forallb (fun i => i <? Z.of_nat n) l.

(** The index lists [index1] and [index2] name the particles of the
    groups [g1] and [g2] in the particle vector. *)
Definition indexes (spc : Space.t) (idx : Tindex) (g : Group) : Prop :=
  Forall2 (fun i a => at_index (Space.p spc) i = Some a) idx g.

(** No particle belongs to two groups of the store. *)
Definition disjoint_groups (spc : Space.t) : Prop :=
  forall i j a, i <> j -> In a (group_of spc i) -> In a (group_of spc j) -> False.

(** The sizes of the groups of [spc] at the indices [l], added up. *)
Definition total_size (spc : Space.t) (l : list Z) : nat :=
  list_sum (map (fun f => length (group_of spc f)) l).

(** The indices of all groups but [g] in a system of [n] groups. *)
Definition others (g : Z) (n : nat) : list Z :=
  filter (fun f => negb (f =? g)) (ints 0 (Z.of_nat n)).

(** ** A small system *)

Module Example.
(** Free space: the separation is the difference of the positions. *)
Definition minus (a b : Point) : Point :=
  mkPoint (x a - x b)%float (y a - y b)%float (z a - z b)%float.

Definition norm (r : Point) : float :=
  PrimFloat.sqrt (x r * x r + y r * y r + z r * z r)%float.

(** The pair potential [1/r]. *)
Definition inverse_r : Nonbonded := mkNonbonded (fun _ _ r => (1 / norm r)%float).

(** A potential that is [1] for every pair. *)
Definition unit_pot : Nonbonded := mkNonbonded (fun _ _ _ => 1%float).

Definition on_axis (i : Z) (c : float) : Particle := mkParticle (mkPoint c 0 0) i 0.

(** Three particles: 0 and 1 in the first group, 2 alone in the second,
    at [c2] on the axis. *)
Definition store (c2 : float) : Space.t :=
  let p0 := on_axis 0 0 in
  let p1 := on_axis 1 (-2) in
  let p2 := on_axis 2 c2 in
  Space.mk minus [p0; p1; p2] [[p0; p1]; [p2]].

(** The same particles with the second group missing. *)
Definition short_store : Space.t :=
  Space.mk minus (Space.p (store 2)) [[on_axis 0 0; on_axis 1 (-2)]].

(** The three particles, each a group of its own. *)
Definition split_store (c2 : float) : Space.t :=
  Space.mk minus (Space.p (store c2)) [[on_axis 0 0]; [on_axis 1 (-2)]; [on_axis 2 c2]].

Definition no_groups : Space.t := Space.mk minus [] [].

Definition touch (l : list Z) : Change.t :=
  Change.mk (map (fun i => Change.mkData i []) l).
End Example.

(** ** Faults and what the evaluator reads *)

Definition is_some {A : Type} (o : option A) : bool :=
  match o with Some _ => true | None => false end.

(** The four group lookups of one pass of the inner loop of [energy] all
    find a group. *)
Definition pair_ok (old new : Space.t) (df : Z * Z) : bool :=
  is_some (at_index (Space.groups old) (fst df))
  && is_some (at_index (Space.groups old) (snd df))
  && is_some (at_index (Space.groups new) (fst df))
  && is_some (at_index (Space.groups new) (snd df)).

(** The two particle lookups of one pass of the inner loop of
    [index2index] both find a particle. *)
Definition index_ok (spc : Space.t) (ij : Z * Z) : bool :=
  is_some (at_index (Space.p spc) (fst ij)) && is_some (at_index (Space.p spc) (snd ij)).

(** The two energies, exchanged. *)
Definition swap (u : float * float) : float * float := (snd u, fst u).

(** ** Atom names ([src/atomdata.h]) *)

Module AtomData.
(** [class AtomData].  The type id [_id] is read through the accessor
    [id()], which is declared in the header and defined elsewhere. *)
Record t : Type := mk {
  property : list (string * float);   (* arbitrary additional properties *)
  id : Z;                             (* _id *)
  name : string;
  charge : float;
  mw : float;
  sigma : float;
  activity : float;
  alphax : float;
  dp : float;
  dprot : float;
  mulen : float;
  sclen : float;
  tension : float;
  tfe : float;
  mu : Point;
  scdir : Point;
  hydrophobic : bool;
  implicit : bool
}.
End AtomData.

(** A call that returns or throws [std::runtime_error]. *)
Inductive outcome (A : Type) : Type :=
| Returned (a : A)
| Thrown (what : string).

Arguments Returned {A} a.
Arguments Thrown {A} what.

(** [std::find_if]: an iterator is the rest of the range from the element
    it points to; the end iterator is the empty rest. *)
Fixpoint find_if {A : Type} (pred : A -> bool) (rng : list A) : list A :=
  match rng with
  | [] => []
  | a :: rest => if pred a then rng else find_if pred rest
  end.

(** [findName]: iterator to the first element whose [name] is the one
    asked for. *)
Definition findName (rng : list AtomData.t) (name : string) : list AtomData.t :=
  find_if (fun i => String.eqb (AtomData.name i) name) rng.

(** An [int] after an arithmetic step, in two's complement. *)
Definition to_int (v : Z) : Z := (v + 2147483648) mod 4294967296 - 2147483648.

(** [std::iota] over [n] elements of type [int], from [value]. *)
Fixpoint iota (n : nat) (value : Z) : list Z :=
  match n with
  | O => []
  | S n' => value :: iota n' (to_int (value + 1))
  end.

(** The loop of [names2ids] over the remaining names, [index] holding the
    ids pushed so far. *)
Fixpoint names2ids_loop (rng : list AtomData.t) (names : list string) (index : list Z)
  : outcome (list Z) :=
  match names with
  | [] => Returned index
  | n :: names' =>
      if String.eqb n "*" then Returned (iota (length rng) 0)
      else
        match findName rng n with
        | it :: _ => names2ids_loop rng names' (index ++ [AtomData.id it])
        | [] => Thrown ("name '" ++ n ++ "' not found")
        end
  end.

(** [names2ids]: the ids of the named elements, or all positions for the
    wildcard. *)
Definition names2ids (rng : list AtomData.t) (names : list string) : outcome (list Z) :=
  names2ids_loop rng names [].

(** [a] is the first element of [rng] with the name [n]. *)
Definition first_named (rng : list AtomData.t) (n : string) (a : AtomData.t) : Prop :=
  exists before after,
    rng = before ++ a :: after /\
    AtomData.name a = n /\
    Forall (fun b => AtomData.name b <> n) before.

(** Some element of [rng] has the name [n]. *)
Definition known (rng : list AtomData.t) (n : string) : bool :=
  existsb (fun i => String.eqb (AtomData.name i) n) rng.

Module ExampleAtoms.
(** An atom with a name and an id, every other member at its default. *)
Definition atom (n : string) (i : Z) : AtomData.t :=
  AtomData.mk [] i n 0 1 0 0 0 0 0 0 0 0 0 (mkPoint 0 0 0) (mkPoint 1 0 0) false false.

(** Three atom types, the name [Na] twice. *)
Definition atoms : list AtomData.t := [atom "Na" 5; atom "Cl" 7; atom "Na" 9].
End ExampleAtoms.

(** ** Worlds and logs *)

Lemma record_nil (w : World) : record w [] = w.
Proof. destruct w; unfold record; simpl; now rewrite app_nil_r. Qed.

Lemma record_record (w : World) (t1 t2 : list Call) :
  record (record w t1) t2 = record w (t1 ++ t2).
Proof. unfold record; simpl; now rewrite app_assoc. Qed.

Lemma record_with_calls (w : World) (log tr : list Call) :
  record (with_calls w log) tr = with_calls (record w tr) (log ++ tr).
Proof. reflexivity. Qed.

Lemma same_objects_refl (w : World) : same_objects w w.
Proof. repeat split. Qed.

Lemma same_objects_record (w0 w : World) (tr : list Call) :
  same_objects w0 w -> same_objects w0 (record w tr).
Proof. intros (Ho & Hn & Hc); repeat split; assumption. Qed.

Lemma space_of_same (w0 w : World) (r : SpaceRef) :
  same_objects w0 w -> space_of r w = space_of r w0.
Proof. intros (Ho & Hn & _); destruct r; assumption. Qed.

Create HintDb world.
#[local] Hint Resolve same_objects_refl same_objects_record : world.

(** ** Loops *)

Lemma fold_left_map_add {A : Type} (e : A -> float) (l : list A) (u : float) :
  fold_left (fun u a => (u + e a)%float) l u = fold_left PrimFloat.add (map e l) u.
Proof. revert u; induction l as [|a l IH]; intros u; simpl; [reflexivity | apply IH]. Qed.

Lemma fold_left_list_prod {A B S : Type} (h : S -> A * B -> S) (l1 : list A) (l2 : list B) (s : S) :
  fold_left (fun s a => fold_left (fun s b => h s (a, b)) l2 s) l1 s
  = fold_left h (list_prod l1 l2) s.
Proof.
  revert s; induction l1 as [|a l1 IH]; intros s; simpl; [reflexivity|].
  rewrite fold_left_app, IH. f_equal.
  clear IH; revert s; induction l2 as [|b l2 IH2]; intros s; simpl; [reflexivity | apply IH2].
Qed.

Lemma flat_map_list_prod {A B C : Type} (t : A * B -> list C) (l1 : list A) (l2 : list B) :
  flat_map (fun a => flat_map (fun b => t (a, b)) l2) l1 = flat_map t (list_prod l1 l2).
Proof.
  induction l1 as [|a l1 IH]; simpl; [reflexivity|].
  rewrite flat_map_app, IH. f_equal.
  clear IH; induction l2 as [|b l2 IH2]; simpl; [reflexivity | now rewrite IH2].
Qed.

Lemma flat_map_singleton {A B : Type} (f : A -> B) (l : list A) :
  flat_map (fun a => [f a]) l = map f l.
Proof. induction l as [|a l IH]; simpl; [reflexivity | now rewrite IH]. Qed.

Lemma bind_run {A B : Type} (m : M A) (f : A -> M B) (w : World) :
  bind m f w = match m w with
               | (Some a, w') => f a w'
               | (None, w') => (None, w')
               end.
Proof. reflexivity. Qed.

(** A loop whose body, on every element and in every world with the same
    objects, returns [f s a] after the calls [t a], folds [f] over the list
    and makes the calls of its elements in order. *)
Lemma for_each_run {A S : Type} (w0 : World) (l : list A) (body : A -> S -> M S)
    (f : S -> A -> S) (t : A -> list Call) :
  (forall a s w, In a l -> same_objects w0 w ->
     body a s w = (Some (f s a), record w (t a))) ->
  forall s w, same_objects w0 w ->
    for_each l body s w = (Some (fold_left f l s), record w (flat_map t l)).
Proof.
  induction l as [|a l IH]; intros Hbody s w Hw; simpl.
  - unfold ret; now rewrite record_nil.
  - unfold bind. rewrite (Hbody a s w (or_introl eq_refl) Hw).
    rewrite IH; auto with world.
    + now rewrite record_record.
    + intros a' s' w' Hin; apply Hbody; now right.
Qed.

Lemma i2i_run (nb : Nonbonded) (r : SpaceRef) (a b : Particle) (w : World) :
  i2i nb r a b w
  = (Some (pair_energy nb (space_of r w) (a, b)), record w [pair_call r (space_of r w) (a, b)]).
Proof. reflexivity. Qed.

Lemma g2g_run (nb : Nonbonded) (r : SpaceRef) (g1 g2 : Group) (w : World) :
  g2g nb r g1 g2 w
  = (Some (group_energy nb (space_of r w) g1 g2), record w (group_calls r (space_of r w) g1 g2)).
Proof.
  unfold g2g, group_energy, group_calls, fsum.
  rewrite (for_each_run w g1 _
             (fun u a => fold_left (fun u b => (u + pair_energy nb (space_of r w) (a, b))%float) g2 u)
             (fun a => flat_map (fun b => [pair_call r (space_of r w) (a, b)]) g2)).
  - rewrite (fold_left_list_prod (fun u ab => (u + pair_energy nb (space_of r w) ab)%float)).
    rewrite (flat_map_list_prod (fun ab => [pair_call r (space_of r w) ab])).
    now rewrite fold_left_map_add, flat_map_singleton.
  - intros a s w1 _ Hw1.
    apply (for_each_run w); [|assumption].
    intros b u w2 _ Hw2. unfold bind. rewrite i2i_run.
    now rewrite (space_of_same w w2 r Hw2).
  - apply same_objects_refl.
Qed.

Lemma for_each_map {A B S : Type} (g : A -> B) (l : list A) (body : B -> S -> M S)
    (s : S) (w : World) :
  for_each l (fun a => body (g a)) s w = for_each (map g l) body s w.
Proof.
  revert s w; induction l as [|a l IH]; intros s w; simpl; [reflexivity|].
  unfold bind. destruct (body (g a) s w) as [[s'|] w']; [apply IH | reflexivity].
Qed.

Lemma fold_left_pair {A : Type} (f g : A -> float) (l : list A) (u : float * float) :
  fold_left (fun u a => ((fst u + f a)%float, (snd u + g a)%float)) l u
  = (fold_left PrimFloat.add (map f l) (fst u), fold_left PrimFloat.add (map g l) (snd u)).
Proof.
  revert u; induction l as [|a l IH]; intros [u1 u2]; simpl; [reflexivity|].
  now rewrite IH.
Qed.

(** ** Indices *)

Lemma at_index_Some {A : Type} (v : list A) (i : Z) :
  0 <= i < Z.of_nat (length v) -> exists a, at_index v i = Some a.
Proof.
  intros Hi. unfold at_index.
  destruct (Z.ltb_spec i 0) as [Hneg|_]; [lia|].
  destruct (nth_error v (Z.to_nat i)) as [a|] eqn:E; [now exists a|].
  apply nth_error_None in E. lia.
Qed.

Lemma at_index_None {A : Type} (v : list A) (i : Z) :
  at_index v i = None <-> i < 0 \/ Z.of_nat (length v) <= i.
Proof.
  unfold at_index. destruct (Z.ltb_spec i 0) as [Hneg|Hpos].
  - split; [now left | reflexivity].
  - rewrite nth_error_None. lia.
Qed.

Lemma at_index_group_of (spc : Space.t) (i : Z) :
  0 <= i < Z.of_nat (length (Space.groups spc)) ->
  at_index (Space.groups spc) i = Some (group_of spc i).
Proof.
  intros Hi. unfold group_of.
  destruct (at_index_Some (Space.groups spc) i Hi) as [g Hg]. now rewrite Hg.
Qed.

Lemma In_ints (from to i : Z) : In i (ints from to) <-> from <= i < to.
Proof.
  unfold ints. rewrite in_map_iff. split.
  - intros (k & <- & Hk). apply in_seq in Hk. lia.
  - intros Hi. exists (Z.to_nat (i - from)). split; [lia|]. apply in_seq. lia.
Qed.

Lemma int_of_size_fits (n : nat) :
  Z.of_nat n < 2147483648 -> int_of_size n = Z.of_nat n.
Proof.
  intros Hn. unfold int_of_size. rewrite Z.mod_small; lia.
Qed.

(** Whatever the conversion to [int] makes of a size, the non-negative
    integers below it are positions of the container. *)
Lemma below_int_of_size (n : nat) (i : Z) :
  0 <= i < int_of_size n -> 0 <= i < Z.of_nat n.
Proof.
  unfold int_of_size. intros Hi.
  pose proof (Z.mod_pos_bound (Z.of_nat n + 2147483648) 4294967296 eq_refl) as Hm.
  pose proof (Z.div_mod (Z.of_nat n + 2147483648) 4294967296 ltac:(lia)) as Hd.
  lia.
Qed.

Lemma In_fixed_view (moved : list Z) (n : nat) (i : Z) :
  In i (fixed_view moved (int_of_size n)) -> 0 <= i < Z.of_nat n.
Proof.
  unfold fixed_view. rewrite filter_In, In_ints. intros [Hi _].
  now apply below_int_of_size.
Qed.

Lemma in_range_spec (n : nat) (l : list Z) :
  in_range n l = true <-> forall i, In i l -> 0 <= i < Z.of_nat n.
Proof.
  unfold in_range. rewrite forallb_forall. split; intros H i Hi; specialize (H i Hi).
  - apply andb_true_iff in H. lia.
  - apply andb_true_iff. split; [apply Z.leb_le | apply Z.ltb_lt]; lia.
Qed.

Lemma mem_spec (i : Z) (l : list Z) : mem i l = true <-> In i l.
Proof.
  unfold mem. rewrite existsb_exists. split.
  - intros (j & Hj & E). apply Z.eqb_eq in E. now subst.
  - intros Hi. exists i. split; [assumption | apply Z.eqb_refl].
Qed.

(** ** Binary search on a sorted vector *)

Lemma sorted_cons_inv (a : Z) (l : list Z) :
  sorted (a :: l) = true -> sorted l = true /\ forall b, In b l -> a <= b.
Proof.
  revert a; induction l as [|b l IH]; intros a H.
  - split; [reflexivity | intros b []].
  - change (((a <=? b) && sorted (b :: l)) = true) in H.
    apply andb_true_iff in H as [Hab Hl]. apply Z.leb_le in Hab.
    split; [assumption|].
    intros c [<-|Hc]; [assumption|].
    destruct (IH b Hl) as [_ Hb]. specialize (Hb c Hc). lia.
Qed.

Lemma sorted_nth (l : list Z) :
  sorted l = true ->
  forall i j, (i <= j < length l)%nat -> nth i l 0 <= nth j l 0.
Proof.
  induction l as [|a l IH]; intros Hs i j Hij; simpl in Hij; [lia|].
  apply sorted_cons_inv in Hs as [Hl Ha].
  destruct i as [|i], j as [|j]; simpl; try lia.
  - apply Ha, nth_In. lia.
  - apply IH; [assumption | lia].
Qed.

Lemma sorted_unique_sorted (l : list Z) : sorted_unique l = true -> sorted l = true.
Proof.
  induction l as [|a l IH]; [reflexivity|].
  destruct l as [|b l]; [reflexivity|].
  intros H. change (((a <? b) && sorted_unique (b :: l)) = true) in H.
  apply andb_true_iff in H as [Hab Hl]. apply Z.ltb_lt in Hab.
  change (((a <=? b) && sorted (b :: l)) = true).
  apply andb_true_iff. split; [apply Z.leb_le; lia | now apply IH].
Qed.

(** The loop keeps the answer inside its window: everything before the
    result is smaller than [val], nothing from the result on is. *)
Lemma lower_bound_loop_spec (v : list Z) (val : Z) :
  sorted v = true ->
  forall fuel first len,
    (len <= fuel)%nat -> (first + len <= length v)%nat ->
    (forall k, (k < first)%nat -> nth k v 0 < val) ->
    (forall k, (first + len <= k < length v)%nat -> val <= nth k v 0) ->
    let r := lower_bound_loop fuel v first len val in
    (r <= length v)%nat /\
    (forall k, (k < r)%nat -> nth k v 0 < val) /\
    (forall k, (r <= k < length v)%nat -> val <= nth k v 0).
Proof.
  intros Hs. pose proof (sorted_nth v Hs) as Hmono.
  induction fuel as [|fuel IH]; intros first len Hfuel Hlen Hlt Hge; simpl.
  - repeat split; [lia | assumption | intros k Hk; apply Hge; lia].
  - destruct len as [|len'].
    + repeat split; [lia | assumption | intros k Hk; apply Hge; lia].
    + remember (S len') as len eqn:Elen.
      assert (Hhalf : (Nat.div2 len < len)%nat) by (apply Nat.lt_div2; lia).
      remember (Nat.div2 len) as half eqn:Ehalf. clear Ehalf.
      destruct (Z.ltb_spec (nth (first + half) v 0) val) as [Hmid|Hmid].
      * apply IH; try lia.
        -- intros k Hk.
           assert (nth k v 0 <= nth (first + half) v 0) by (apply Hmono; lia).
           lia.
        -- intros k Hk. apply Hge. lia.
      * apply IH; try lia; try assumption.
        intros k Hk.
        assert (nth (first + half) v 0 <= nth k v 0) by (apply Hmono; lia).
        lia.
Qed.

Lemma binary_search_spec (v : list Z) (val : Z) :
  sorted v = true -> (binary_search v val = true <-> In val v).
Proof.
  intros Hs.
  destruct (lower_bound_loop_spec v val Hs (length v) 0%nat (length v))
    as (Hr & Hlt & Hge); try lia.
  fold (lower_bound v val) in Hr, Hlt, Hge.
  unfold binary_search. rewrite andb_true_iff, negb_true_iff, Nat.ltb_lt, Z.ltb_ge.
  split.
  - intros [Hi Hle].
    assert (val <= nth (lower_bound v val) v 0) by (apply Hge; lia).
    replace val with (nth (lower_bound v val) v 0) by lia.
    now apply nth_In.
  - intros Hin. destruct (In_nth v val 0 Hin) as (k & Hk & Ek).
    assert (Hrk : (lower_bound v val <= k)%nat).
    { destruct (Nat.le_gt_cases (lower_bound v val) k) as [H|H]; [assumption|].
      specialize (Hlt k H). exfalso; lia. }
    split; [lia|].
    assert (nth (lower_bound v val) v 0 <= nth k v 0) by (apply sorted_nth; [assumption | lia]).
    lia.
Qed.

(** On a sorted list of touched indices the view of the static groups is
    the complement of the touched set. *)
Lemma fixed_view_untouched (moved : list Z) (n : Z) :
  sorted moved = true -> fixed_view moved n = untouched moved n.
Proof.
  intros Hs. unfold fixed_view, untouched. apply filter_ext. intros i. f_equal.
  apply eq_true_iff_eq. now rewrite binary_search_spec, mem_spec.
Qed.

Lemma In_untouched (moved : list Z) (n i : Z) :
  In i (untouched moved n) <-> 0 <= i < n /\ ~ In i moved.
Proof.
  unfold untouched. rewrite filter_In, In_ints, negb_true_iff.
  rewrite <- mem_spec. destruct (mem i moved); intuition congruence.
Qed.

(** ** The evaluator, run *)

Lemma group_at_run (r : SpaceRef) (i : Z) (w : World) :
  0 <= i < Z.of_nat (length (Space.groups (space_of r w))) ->
  group_at r i w = (Some (group_of (space_of r w) i), w).
Proof.
  intros Hi. unfold group_at, bind, read_space.
  now rewrite (at_index_group_of _ _ Hi).
Qed.

Lemma moved_static_run (nb : Nonbonded) (d i : Z) (u : float * float) (w : World) :
  0 <= d < Z.of_nat (length (Space.groups (oldspc w))) ->
  0 <= i < Z.of_nat (length (Space.groups (oldspc w))) ->
  0 <= d < Z.of_nat (length (Space.groups (newspc w))) ->
  0 <= i < Z.of_nat (length (Space.groups (newspc w))) ->
  moved_static nb d i u w
  = (Some ((fst u + term nb (oldspc w) (d, i))%float,
           (snd u + term nb (newspc w) (d, i))%float),
     record w (step_calls (oldspc w) (newspc w) (d, i))).
Proof.
  intros Hd Hi Hd' Hi'. unfold moved_static, bind.
  rewrite (group_at_run OldSpc d w Hd), (group_at_run OldSpc i w Hi), g2g_run.
  rewrite (group_at_run NewSpc d) by exact Hd'.
  rewrite (group_at_run NewSpc i) by exact Hi'.
  rewrite g2g_run.
  unfold ret. now rewrite record_record.
Qed.

(** [energy] on a non-empty change set whose touched indices are positions
    of both group vectors, the new one being no shorter than the old one:
    it returns the two sums over the visited index pairs and makes their
    calls.  Nothing is asked of the order of the touched indices. *)
Lemma energy_run (nb : Nonbonded) (w : World) :
  Change.empty (change w) = false ->
  in_range (length (Space.groups (oldspc w))) (Change.touchedGroupIndex (change w)) = true ->
  in_range (length (Space.groups (newspc w))) (Change.touchedGroupIndex (change w)) = true ->
  (length (Space.groups (oldspc w)) <= length (Space.groups (newspc w)))%nat ->
  energy nb w
  = (Some (fsum (map (term nb (oldspc w)) (visited (oldspc w) (change w))),
           fsum (map (term nb (newspc w)) (visited (oldspc w) (change w)))),
     record w (flat_map (step_calls (oldspc w) (newspc w)) (visited (oldspc w) (change w)))).
Proof.
  intros Hne Hold Hnew Hlen.
  rewrite in_range_spec in Hold, Hnew.
  unfold energy, bind, read_change, read_space. rewrite Hne. cbn [space_of].
  set (fixed := fixed_view _ _).
  rewrite (for_each_map Change.index (Change.groups (change w))
             (fun d u => for_each fixed (fun i u => moved_static nb d i u) u)).
  fold (Change.touchedGroupIndex (change w)).
  rewrite (for_each_run w (Change.touchedGroupIndex (change w)) _
             (fun u d => fold_left
                (fun u i => ((fst u + term nb (oldspc w) (d, i))%float,
                             (snd u + term nb (newspc w) (d, i))%float)) fixed u)
             (fun d => flat_map (fun i => step_calls (oldspc w) (newspc w) (d, i)) fixed)).
  - rewrite (fold_left_list_prod
               (fun u df => ((fst u + term nb (oldspc w) df)%float,
                             (snd u + term nb (newspc w) df)%float))).
    rewrite (flat_map_list_prod (step_calls (oldspc w) (newspc w))).
    now rewrite fold_left_pair.
  - intros d u w1 Hd Hw1.
    apply (for_each_run w); [|assumption].
    intros i u' w2 Hi (Ho & Hn & _).
    apply In_fixed_view in Hi. specialize (Hold d Hd). specialize (Hnew d Hd).
    rewrite moved_static_run; rewrite ?Ho, ?Hn; try lia. reflexivity.
  - apply same_objects_refl.
Qed.

(** ** Reading computations *)

Lemma frames_ret {A : Type} (a : A) : frames (ret a).
Proof.
  intros w. exists []. split; [symmetry; apply record_nil|].
  intros log. unfold ret. now rewrite record_nil.
Qed.

Lemma frames_fault {A : Type} : frames (@fault A).
Proof.
  intros w. exists []. split; [symmetry; apply record_nil|].
  intros log. unfold fault. now rewrite record_nil.
Qed.

Lemma frames_read_space (r : SpaceRef) : frames (read_space r).
Proof.
  intros w. exists []. split; [symmetry; apply record_nil|].
  intros log. unfold read_space. rewrite record_nil. now destruct r.
Qed.

Lemma frames_read_change : frames read_change.
Proof.
  intros w. exists []. split; [symmetry; apply record_nil|].
  intros log. unfold read_change. now rewrite record_nil.
Qed.

Lemma frames_log_call (c : Call) : frames (log_call c).
Proof. intros w. exists [c]. split; [reflexivity | intros log; reflexivity]. Qed.

Lemma frames_of_option {A : Type} (o : option A) : frames (of_option o).
Proof. destruct o; [apply frames_ret | apply frames_fault]. Qed.

Lemma frames_bind {A B : Type} (m : M A) (f : A -> M B) :
  frames m -> (forall a, frames (f a)) -> frames (bind m f).
Proof.
  intros Hm Hf w. destruct (Hm w) as (tr & Hs & Hl). unfold bind.
  destruct (m w) as [[a|] w'] eqn:E; simpl in Hs, Hl; subst w'.
  - destruct (Hf a (record w tr)) as (tr' & Hs' & Hl').
    exists (tr ++ tr'). split; [now rewrite Hs', record_record|].
    intros log. rewrite Hl, record_with_calls, Hl'.
    f_equal. unfold record, with_calls; simpl. now rewrite app_assoc.
  - exists tr. split; [reflexivity|]. intros log. now rewrite Hl.
Qed.

Lemma frames_for_each {A S : Type} (l : list A) (body : A -> S -> M S) :
  (forall a s, frames (body a s)) -> forall s, frames (for_each l body s).
Proof.
  intros Hbody. induction l as [|a l IH]; intros s; simpl.
  - apply frames_ret.
  - apply frames_bind; [apply Hbody | apply IH].
Qed.

#[local] Hint Resolve frames_ret frames_fault frames_read_space frames_read_change
  frames_log_call frames_of_option : world.

Lemma frames_group_at (r : SpaceRef) (i : Z) : frames (group_at r i).
Proof. apply frames_bind; auto with world. Qed.

Lemma frames_particle_at (r : SpaceRef) (i : Z) : frames (particle_at r i).
Proof. apply frames_bind; auto with world. Qed.

Lemma frames_i2i (nb : Nonbonded) (r : SpaceRef) (a b : Particle) : frames (i2i nb r a b).
Proof.
  apply frames_bind; [auto with world|]. intros spc.
  apply frames_bind; auto with world.
Qed.

Lemma frames_g2g (nb : Nonbonded) (r : SpaceRef) (g1 g2 : Group) : frames (g2g nb r g1 g2).
Proof.
  apply frames_for_each. intros a u. apply frames_for_each. intros b u'.
  apply frames_bind; [apply frames_i2i | auto with world].
Qed.

Lemma frames_index2index (nb : Nonbonded) (r : SpaceRef) (index1 index2 : Tindex) :
  frames (index2index nb r index1 index2).
Proof.
  apply frames_for_each. intros i u. apply frames_for_each. intros j u'.
  apply frames_bind; [apply frames_particle_at | intros a].
  apply frames_bind; [apply frames_particle_at | intros b].
  apply frames_bind; [apply frames_i2i | auto with world].
Qed.

Lemma frames_moved_static (nb : Nonbonded) (d i : Z) (u : float * float) :
  frames (moved_static nb d i u).
Proof.
  unfold moved_static.
  repeat (apply frames_bind;
          [first [apply frames_group_at | apply frames_g2g] | intros ?]).
  apply frames_ret.
Qed.

Lemma frames_energy (nb : Nonbonded) : frames (energy nb).
Proof.
  apply frames_bind; [apply frames_read_change | intros ch].
  destruct (Change.empty ch); [apply frames_ret|].
  apply frames_bind; [apply frames_read_space | intros old].
  apply frames_for_each. intros d u. apply frames_for_each. intros i u'.
  apply frames_moved_static.
Qed.

(** ** Index lists *)

Lemma particle_at_run (r : SpaceRef) (i : Z) (a : Particle) (w0 w : World) :
  same_objects w0 w ->
  at_index (Space.p (space_of r w0)) i = Some a ->
  particle_at r i w = (Some a, w).
Proof.
  intros Hw Ha. unfold particle_at, bind, read_space.
  now rewrite (space_of_same w0 w r Hw), Ha.
Qed.

(** The inner loop over an index list and the inner loop over the
    particles it names. *)
Lemma index_inner_loop (nb : Nonbonded) (r : SpaceRef) (w0 : World) (i : Z) (a : Particle)
    (index2 : Tindex) (g2 : Group) :
  at_index (Space.p (space_of r w0)) i = Some a ->
  indexes (space_of r w0) index2 g2 ->
  forall u w, same_objects w0 w ->
    for_each index2 (fun j u =>
      a <- particle_at r i ;; b <- particle_at r j ;;
      e <- i2i nb r a b ;; ret (u + e)%float) u w
    = for_each g2 (fun j u => e <- i2i nb r a j ;; ret (u + e)%float) u w.
Proof.
  intros Ha H2. induction H2 as [|j b index2 g2 Hb _ IH]; intros u w Hw; simpl.
  - reflexivity.
  - unfold bind at 1 2 3 4. unfold bind at 2 3.
    rewrite (particle_at_run r i a w0 w Hw Ha), (particle_at_run r j b w0 w Hw Hb).
    rewrite i2i_run. unfold ret at 1 2. apply IH. auto with world.
Qed.

Lemma index_outer_loop (nb : Nonbonded) (r : SpaceRef) (w0 : World)
    (index1 index2 : Tindex) (g1 g2 : Group) :
  indexes (space_of r w0) index1 g1 ->
  indexes (space_of r w0) index2 g2 ->
  forall u w, same_objects w0 w ->
    for_each index1 (fun i u =>
      for_each index2 (fun j u =>
        a <- particle_at r i ;; b <- particle_at r j ;;
        e <- i2i nb r a b ;; ret (u + e)%float) u) u w
    = for_each g1 (fun i u =>
        for_each g2 (fun j u => e <- i2i nb r i j ;; ret (u + e)%float) u) u w.
Proof.
  intros H1 H2. induction H1 as [|i a index1 g1 Ha _ IH]; intros u w Hw; simpl.
  - reflexivity.
  - rewrite !bind_run. rewrite (index_inner_loop nb r w0 i a index2 g2 Ha H2 u w Hw).
    pose proof (frames_for_each g2
                  (fun j u => e <- i2i nb r a j ;; ret (u + e)%float)) as Hfr.
    destruct (Hfr (fun b u' => frames_bind _ _ (frames_i2i nb r a b) (fun e => frames_ret _)) u w)
      as (tr & Hs & _).
    destruct (for_each g2 _ u w) as [[u'|] w'] eqn:E; [|reflexivity].
    simpl in Hs. subst w'. apply IH. auto with world.
Qed.

(** Every list of indices in range names a sequence of particles. *)
Lemma indexes_exists (spc : Space.t) (idx : Tindex) :
  in_range (length (Space.p spc)) idx = true -> exists g, indexes spc idx g.
Proof.
  rewrite in_range_spec. induction idx as [|i idx IH]; intros H.
  - exists []. constructor.
  - destruct (at_index_Some (Space.p spc) i (H i (or_introl eq_refl))) as [a Ha].
    destruct IH as [g Hg]; [intros j Hj; apply H; now right|].
    exists (a :: g). now constructor.
Qed.

(** ** Counting calls *)

Lemma calls_for_app (r : SpaceRef) (t1 t2 : list Call) :
  calls_for r (t1 ++ t2) = calls_for r t1 ++ calls_for r t2.
Proof. apply filter_app. Qed.

Lemma calls_for_group_calls (r r' : SpaceRef) (spc : Space.t) (g1 g2 : Group) :
  calls_for r (group_calls r' spc g1 g2)
  = if SpaceRef_eqb r' r then group_calls r' spc g1 g2 else [].
Proof.
  unfold group_calls, calls_for.
  induction (list_prod g1 g2) as [|ab l IH]; simpl.
  - now destruct (SpaceRef_eqb r' r).
  - rewrite IH. now destruct (SpaceRef_eqb r' r).
Qed.

Lemma calls_for_steps (r : SpaceRef) (old new : Space.t) (l : list (Z * Z)) :
  calls_for r (flat_map (step_calls old new) l)
  = flat_map (term_calls r (pick old new r)) l.
Proof.
  induction l as [|df l IH]; simpl; [reflexivity|].
  rewrite calls_for_app, IH. f_equal.
  unfold step_calls, term_calls. rewrite calls_for_app, !calls_for_group_calls.
  destruct r; simpl; [now rewrite app_nil_r | reflexivity].
Qed.

Lemma length_group_calls (r : SpaceRef) (spc : Space.t) (g1 g2 : Group) :
  length (group_calls r spc g1 g2) = (length g1 * length g2)%nat.
Proof. unfold group_calls. now rewrite length_map, length_prod. Qed.

Lemma list_sum_scale (c : nat) (l : list nat) :
  list_sum (map (fun k => c * k)%nat l) = (c * list_sum l)%nat.
Proof. induction l as [|k l IH]; simpl; [lia | rewrite IH; lia]. Qed.

(** One touched group: the calls made for a space. *)
Lemma length_single_calls (r : SpaceRef) (spc : Space.t) (g : Z) (fixed : list Z) :
  length (flat_map (term_calls r spc) (list_prod [g] fixed))
  = (length (group_of spc g) * total_size spc fixed)%nat.
Proof.
  unfold total_size. simpl. rewrite app_nil_r, length_flat_map, map_map.
  rewrite <- list_sum_scale, map_map. f_equal. apply map_ext. intros f.
  unfold term_calls. now rewrite length_group_calls.
Qed.

Lemma untouched_single (g : Z) (n : nat) : untouched [g] (Z.of_nat n) = others g n.
Proof.
  unfold untouched, others. apply filter_ext. intros i. simpl.
  now rewrite orb_false_r.
Qed.

Lemma visited_sorted (old : Space.t) (ch : Change.t) :
  sorted (Change.touchedGroupIndex ch) = true ->
  Z.of_nat (length (Space.groups old)) < 2147483648 ->
  visited old ch = moved_fixed_pairs (Change.touchedGroupIndex ch) (length (Space.groups old)).
Proof.
  intros Hs Hfit. unfold visited, moved_fixed_pairs.
  now rewrite fixed_view_untouched, int_of_size_fits.
Qed.

Lemma moved_fixed_pairs_spec (moved : list Z) (n : nat) (d f : Z) :
  In (d, f) (moved_fixed_pairs moved n)
  <-> In d moved /\ 0 <= f < Z.of_nat n /\ ~ In f moved.
Proof. unfold moved_fixed_pairs. now rewrite in_prod_iff, In_untouched. Qed.


(** ** The claims *)

(** C3.  In every space, [g2g] of two groups returns the sum, accumulated
    from zero in loop order, of the pair energy over the full cross product
    of the two groups, one pair-potential call per pair and [|g1| * |g2|]
    pairs in all; the pair energy [i2i] of two particles is the pair
    potential applied to them and to [geo.vdist] of their positions. *)
Theorem g2g_cross_product (nb : Nonbonded) (r : SpaceRef) (g1 g2 : Group) (w : World) :
  g2g nb r g1 g2 w
  = (Some (fsum (map (pair_energy nb (space_of r w)) (list_prod g1 g2))),
     record w (map (pair_call r (space_of r w)) (list_prod g1 g2)))
  /\ length (list_prod g1 g2) = (length g1 * length g2)%nat
  /\ forall a b,
       i2i nb r a b w
       = (Some (pairpot nb a b (Space.vdist (space_of r w) (pos a) (pos b))),
          record w [mkCall r a b (Space.vdist (space_of r w) (pos a) (pos b))]).
Proof.
  split; [apply g2g_run|]. split; [apply length_prod|].
  intros a b. apply i2i_run.
Qed.

(** C2.  On an empty change set [energy] returns [(0, 0)] for any two
    stores, makes no pair-potential call and does not fault; the stores
    may have no groups at all. *)
Theorem energy_empty_change (nb : Nonbonded) (old new : Space.t) (ch : Change.t) :
  Change.empty ch = true ->
  evaluateChange nb old new ch = (Some (0%float, 0%float), mkWorld old new ch []).
Proof.
  intros He. unfold evaluateChange, energy. rewrite bind_run.
  unfold read_change. cbn [change]. now rewrite He.
Qed.

(** The system without groups. *)
Lemma energy_empty_change_witness :
  Change.empty (Example.touch []) = true /\
  evaluateChange Example.inverse_r Example.no_groups Example.no_groups (Example.touch [])
  = (Some (0%float, 0%float),
     mkWorld Example.no_groups Example.no_groups (Example.touch []) []).
Proof.
  split; [reflexivity|].
  apply (energy_empty_change Example.inverse_r Example.no_groups Example.no_groups
           (Example.touch [])).
  reflexivity.
Defined.

(** C7.  A call of [energy] leaves both stores and the change set as they
    were; its result does not depend on the calls made before it, and a
    second call made right after the first returns the same result. *)
Theorem energy_reads_only (nb : Nonbonded) (w : World) :
  oldspc (snd (energy nb w)) = oldspc w /\
  newspc (snd (energy nb w)) = newspc w /\
  change (snd (energy nb w)) = change w /\
  (forall log, fst (energy nb (with_calls w log)) = fst (energy nb w)) /\
  fst (energy nb (snd (energy nb w))) = fst (energy nb w).
Proof.
  destruct (frames_energy nb w) as (tr & Hs & Hl).
  rewrite Hs. repeat split.
  - intros log. now rewrite Hl.
  - change (record w tr) with (with_calls w (calls w ++ tr)). now rewrite Hl.
Qed.

(** C8.  When two index lists name, position by position, the particles
    of two groups in the particle vector of a space, [index2index] on the
    index lists is the same computation as [g2g] on the groups: the same
    energy after the same pair-potential calls. *)
Theorem index2index_agrees_with_g2g (nb : Nonbonded) (r : SpaceRef) (w : World)
    (index1 index2 : Tindex) (g1 g2 : Group) :
  indexes (space_of r w) index1 g1 ->
  indexes (space_of r w) index2 g2 ->
  index2index nb r index1 index2 w = g2g nb r g1 g2 w.
Proof.
  intros H1 H2. unfold index2index, g2g.
  apply (index_outer_loop nb r w); auto with world.
Qed.

(** The three particles of the small system, by index and by group. *)
Lemma index2index_agrees_with_g2g_witness :
  (indexes (Example.store 2) [0; 1] [Example.on_axis 0 0; Example.on_axis 1 (-2)] /\
   indexes (Example.store 2) [2] [Example.on_axis 2 2]) /\
  index2index Example.inverse_r OldSpc [0; 1] [2]
    (mkWorld (Example.store 2) (Example.store 3) (Example.touch [1]) [])
  = g2g Example.inverse_r OldSpc [Example.on_axis 0 0; Example.on_axis 1 (-2)]
      [Example.on_axis 2 2]
      (mkWorld (Example.store 2) (Example.store 3) (Example.touch [1]) []).
Proof.
  assert (H1 : indexes (Example.store 2) [0; 1]
                 [Example.on_axis 0 0; Example.on_axis 1 (-2)])
    by (repeat constructor).
  assert (H2 : indexes (Example.store 2) [2] [Example.on_axis 2 2])
    by (repeat constructor).
  split; [now split|].
  exact (index2index_agrees_with_g2g Example.inverse_r OldSpc
           (mkWorld (Example.store 2) (Example.store 3) (Example.touch [1]) [])
           [0; 1] [2] _ _ H1 H2).
Defined.

(** C9.  [applyDelta] replaces the running total by
    [running + (deltaNew - deltaOld)]; a tracker seeded with 10 that takes
    the deltas (2, 3) and then (-1, 0.5) holds 12.5. *)
Theorem applyDelta_running :
  (forall s deltaOld deltaNew,
     EnergyDrift.running (EnergyDrift.applyDelta deltaOld deltaNew s)
     = (EnergyDrift.running s + (deltaNew - deltaOld))%float) /\
  EnergyDrift.running
    (EnergyDrift.applyDelta (-1)%float 0.5%float
       (EnergyDrift.applyDelta 2%float 3%float (EnergyDrift.init 10%float)))
  = 12.5%float.
Proof. split; [intros s deltaOld deltaNew; reflexivity | vm_compute; reflexivity]. Qed.

(** The stores of a call as seen from a space reference. *)
Lemma calls_of_evaluateChange (nb : Nonbonded) (old new : Space.t) (ch : Change.t)
    (u : float * float) (tr : list Call) :
  energy nb (mkWorld old new ch []) = (Some u, record (mkWorld old new ch []) tr) ->
  result_of (evaluateChange nb old new ch) = Some u /\
  calls_of (evaluateChange nb old new ch) = tr.
Proof. unfold evaluateChange, result_of, calls_of. now intros ->. Qed.

Lemma valid_change_spec (n : nat) (ch : Change.t) :
  valid_change n ch = true ->
  in_range n (Change.touchedGroupIndex ch) = true /\
  sorted (Change.touchedGroupIndex ch) = true.
Proof.
  unfold valid_change. rewrite andb_true_iff. intros [Hr Hs].
  split; [assumption | now apply sorted_unique_sorted].
Qed.

Lemma empty_false_of_length (ch : Change.t) :
  (1 <= length (Change.groups ch))%nat -> Change.empty ch = false.
Proof. unfold Change.empty. destruct (Change.groups ch); simpl; [lia | reflexivity]. Qed.

(** [energy] on a valid change set between two stores with the same
    number of groups: the sums and the calls over the (touched, fixed)
    pairs of the spec. *)
Lemma evaluateChange_valid (nb : Nonbonded) (old new : Space.t) (ch : Change.t) :
  Change.empty ch = false ->
  valid_change (length (Space.groups old)) ch = true ->
  length (Space.groups new) = length (Space.groups old) ->
  Z.of_nat (length (Space.groups old)) < 2147483648 ->
  result_of (evaluateChange nb old new ch)
  = Some (fsum (map (term nb old)
                  (moved_fixed_pairs (Change.touchedGroupIndex ch) (length (Space.groups old)))),
          fsum (map (term nb new)
                  (moved_fixed_pairs (Change.touchedGroupIndex ch) (length (Space.groups old)))))
  /\ calls_of (evaluateChange nb old new ch)
     = flat_map (step_calls old new)
         (moved_fixed_pairs (Change.touchedGroupIndex ch) (length (Space.groups old))).
Proof.
  intros Hne Hv Hlen Hfit. apply valid_change_spec in Hv as [Hr Hs].
  rewrite <- (visited_sorted old ch Hs Hfit).
  apply calls_of_evaluateChange.
  apply (energy_run nb (mkWorld old new ch [])); cbn [oldspc newspc change];
    try assumption.
  - now rewrite Hlen.
  - now rewrite Hlen.
Qed.

(** C1.  For a non-empty change set (touched indices in range, sorted
    and unique) between two stores with the same number of groups, a
    number that fits an [int], [energy] returns the pair whose first component is the sum, over every
    touched group [d] and every fixed group [f] (an index of the group
    vector that is not touched), of the group-pair energy of [d] and [f]
    in the old store, and whose second component is that sum in the new
    store; every group pair evaluated has a touched first member, so no
    fixed-with-fixed pair is; and when one group [g] is touched, the
    pair-potential calls made for a store number [|g|] times the sizes of
    all other groups added up. *)
Theorem energy_moved_with_fixed (nb : Nonbonded) (old new : Space.t) (ch : Change.t) :
  Change.empty ch = false ->
  valid_change (length (Space.groups old)) ch = true ->
  length (Space.groups new) = length (Space.groups old) ->
  Z.of_nat (length (Space.groups old)) < 2147483648 ->
  result_of (evaluateChange nb old new ch)
  = Some (fsum (map (fun df => group_energy nb old (group_of old (fst df)) (group_of old (snd df)))
                  (moved_fixed_pairs (Change.touchedGroupIndex ch) (length (Space.groups old)))),
          fsum (map (fun df => group_energy nb new (group_of new (fst df)) (group_of new (snd df)))
                  (moved_fixed_pairs (Change.touchedGroupIndex ch) (length (Space.groups old)))))
  /\ (forall d f,
        In (d, f) (moved_fixed_pairs (Change.touchedGroupIndex ch) (length (Space.groups old)))
        <-> In d (Change.touchedGroupIndex ch)
            /\ 0 <= f < Z.of_nat (length (Space.groups old))
            /\ ~ In f (Change.touchedGroupIndex ch))
  /\ calls_of (evaluateChange nb old new ch)
     = flat_map (fun df =>
                   group_calls OldSpc old (group_of old (fst df)) (group_of old (snd df))
                   ++ group_calls NewSpc new (group_of new (fst df)) (group_of new (snd df)))
         (moved_fixed_pairs (Change.touchedGroupIndex ch) (length (Space.groups old)))
  /\ (forall g, Change.touchedGroupIndex ch = [g] ->
        length (calls_for OldSpc (calls_of (evaluateChange nb old new ch)))
        = (length (group_of old g) * total_size old (others g (length (Space.groups old))))%nat
        /\ length (calls_for NewSpc (calls_of (evaluateChange nb old new ch)))
           = (length (group_of new g) * total_size new (others g (length (Space.groups old))))%nat).
Proof.
  intros Hne Hv Hlen Hfit.
  destruct (evaluateChange_valid nb old new ch Hne Hv Hlen Hfit) as [Hres Hcalls].
  split; [exact Hres|]. split; [intros d f; apply moved_fixed_pairs_spec|].
  split; [exact Hcalls|].
  intros g Hg. rewrite Hcalls, !calls_for_steps, Hg.
  unfold moved_fixed_pairs. rewrite untouched_single.
  split; apply length_single_calls.
Qed.

(** The scenario of the spec: particle 2 moves from distance 2 and 4 of
    the two static particles to distance 3 and 5, under the potential
    [1/r]. *)
Lemma energy_moved_with_fixed_witness :
  (Change.empty (Example.touch [1]) = false /\
   valid_change (length (Space.groups (Example.store 2))) (Example.touch [1]) = true /\
   length (Space.groups (Example.store 3)) = length (Space.groups (Example.store 2)) /\
   Z.of_nat (length (Space.groups (Example.store 2))) < 2147483648) /\
  result_of (evaluateChange Example.inverse_r (Example.store 2) (Example.store 3)
               (Example.touch [1]))
  = Some (0.75%float, (1 / 3 + 1 / 5)%float) /\
  length (calls_for OldSpc
            (calls_of (evaluateChange Example.inverse_r (Example.store 2) (Example.store 3)
                         (Example.touch [1])))) = 2%nat.
Proof.
  assert (H1 : Change.empty (Example.touch [1]) = false) by reflexivity.
  assert (H2 : valid_change (length (Space.groups (Example.store 2))) (Example.touch [1]) = true)
    by reflexivity.
  assert (H3 : length (Space.groups (Example.store 3)) = length (Space.groups (Example.store 2)))
    by reflexivity.
  assert (H4 : Z.of_nat (length (Space.groups (Example.store 2))) < 2147483648)
    by (simpl; lia).
  split; [repeat split; assumption|].
  destruct (energy_moved_with_fixed Example.inverse_r (Example.store 2) (Example.store 3)
              (Example.touch [1]) H1 H2 H3 H4) as (Hres & _ & _ & Hcount).
  split.
  - rewrite Hres. vm_compute. reflexivity.
  - destruct (Hcount 1 eq_refl) as [Hold _]. rewrite Hold. reflexivity.
Defined.

Lemma In_group_calls (r : SpaceRef) (spc : Space.t) (g1 g2 : Group) (c : Call) :
  In c (group_calls r spc g1 g2) ->
  call_spc c = r /\ In (call_a c) g1 /\ In (call_b c) g2.
Proof.
  unfold group_calls. rewrite in_map_iff. intros ([a b] & <- & Hab).
  apply in_prod_iff in Hab. simpl. tauto.
Qed.

(** Every call of a step on the index pair [(d, f)] pairs a particle of
    group [d] with a particle of group [f] of the store it is made for. *)
Lemma In_step_calls (old new : Space.t) (d f : Z) (c : Call) :
  In c (step_calls old new (d, f)) ->
  In (call_a c) (group_of (pick old new (call_spc c)) d) /\
  In (call_b c) (group_of (pick old new (call_spc c)) f).
Proof.
  unfold step_calls, term_calls. rewrite in_app_iff.
  intros [H|H]; apply In_group_calls in H as (-> & Ha & Hb); now split.
Qed.

(** C4.  For a change set touching two or more groups (indices in range,
    sorted and unique) between two stores with the same number of groups,
    a number that fits an [int]: the returned energies are sums of
    touched-with-fixed group-pair terms only; every pair-potential call
    pairs a particle of a touched group with a particle of a fixed group;
    and, where the groups of each store have no particle in common, no
    call is made on two particles that both belong to touched groups. *)
Theorem no_moved_with_moved (nb : Nonbonded) (old new : Space.t) (ch : Change.t) :
  (2 <= length (Change.groups ch))%nat ->
  valid_change (length (Space.groups old)) ch = true ->
  length (Space.groups new) = length (Space.groups old) ->
  Z.of_nat (length (Space.groups old)) < 2147483648 ->
  (result_of (evaluateChange nb old new ch)
   = Some (fsum (map (term nb old)
                   (moved_fixed_pairs (Change.touchedGroupIndex ch) (length (Space.groups old)))),
           fsum (map (term nb new)
                   (moved_fixed_pairs (Change.touchedGroupIndex ch) (length (Space.groups old))))) /\
   Forall (fun df => In (fst df) (Change.touchedGroupIndex ch) /\
                     ~ In (snd df) (Change.touchedGroupIndex ch))
     (moved_fixed_pairs (Change.touchedGroupIndex ch) (length (Space.groups old)))) /\
  Forall (fun c => exists d f,
            In d (Change.touchedGroupIndex ch) /\ ~ In f (Change.touchedGroupIndex ch) /\
            In (call_a c) (group_of (pick old new (call_spc c)) d) /\
            In (call_b c) (group_of (pick old new (call_spc c)) f))
    (calls_of (evaluateChange nb old new ch)) /\
  (disjoint_groups old -> disjoint_groups new ->
   Forall (fun c => forall d1 d2,
             In d1 (Change.touchedGroupIndex ch) -> In d2 (Change.touchedGroupIndex ch) ->
             In (call_a c) (group_of (pick old new (call_spc c)) d1) ->
             In (call_b c) (group_of (pick old new (call_spc c)) d2) -> False)
     (calls_of (evaluateChange nb old new ch))).
Proof.
  intros Hlen2 Hv Hlen Hfit.
  assert (Hne : Change.empty ch = false) by (apply empty_false_of_length; lia).
  destruct (evaluateChange_valid nb old new ch Hne Hv Hlen Hfit) as [Hres Hcalls].
  assert (Hattr : Forall (fun c => exists d f,
            In d (Change.touchedGroupIndex ch) /\ ~ In f (Change.touchedGroupIndex ch) /\
            In (call_a c) (group_of (pick old new (call_spc c)) d) /\
            In (call_b c) (group_of (pick old new (call_spc c)) f))
    (calls_of (evaluateChange nb old new ch))).
  { rewrite Hcalls. apply Forall_flat_map, Forall_forall. intros [d f] Hdf.
    apply moved_fixed_pairs_spec in Hdf as (Hd & _ & Hf).
    apply Forall_forall. intros c Hc. apply In_step_calls in Hc as [Ha Hb].
    exists d, f. tauto. }
  split; [|split; [exact Hattr|]].
  - split; [exact Hres|].
    apply Forall_forall. intros [d f] Hdf.
    apply moved_fixed_pairs_spec in Hdf. simpl. tauto.
  - intros Hdo Hdn. eapply Forall_impl; [|exact Hattr].
    intros c (d & f & Hd & Hf & _ & Hb) d1 d2 _ Hd2 _ Hb2.
    assert (Hneq : f <> d2) by (intros ->; contradiction).
    destruct (call_spc c); simpl in Hb, Hb2; [eapply Hdo | eapply Hdn]; eauto.
Qed.

Lemma group_of_negative (spc : Space.t) (i : Z) : i < 0 -> group_of spc i = [].
Proof.
  intros Hi. unfold group_of, at_index.
  destruct (Z.ltb_spec i 0); [reflexivity | lia].
Qed.

Lemma group_of_nth (spc : Space.t) (i : Z) :
  0 <= i -> group_of spc i = nth (Z.to_nat i) (Space.groups spc) [].
Proof.
  intros Hi. unfold group_of, at_index.
  destruct (Z.ltb_spec i 0); [lia|].
  destruct (nth_error (Space.groups spc) (Z.to_nat i)) as [g|] eqn:E.
  - symmetry. now apply nth_error_nth.
  - apply nth_error_None in E. symmetry. now apply nth_overflow.
Qed.

(** Groups compared position by position: no particle of one is a
    particle of another. *)
Lemma disjoint_groups_nth (spc : Space.t) :
  (forall i j a, i <> j ->
     In a (nth i (Space.groups spc) []) -> In a (nth j (Space.groups spc) []) -> False) ->
  disjoint_groups spc.
Proof.
  intros H i j a Hij Hi Hj.
  destruct (Z.ltb_spec i 0) as [Hin|Hip]; [now rewrite group_of_negative in Hi|].
  destruct (Z.ltb_spec j 0) as [Hjn|Hjp]; [now rewrite group_of_negative in Hj|].
  rewrite group_of_nth in Hi, Hj by assumption.
  apply (H (Z.to_nat i) (Z.to_nat j) a); [lia | assumption | assumption].
Qed.

Lemma disjoint_split_store (c2 : float) : disjoint_groups (Example.split_store c2).
Proof.
  apply disjoint_groups_nth. intros i j a Hij Hi Hj.
  destruct i as [|[|[|i]]], j as [|[|[|j]]]; simpl in Hi, Hj;
    try contradiction; try (destruct i; contradiction); try (destruct j; contradiction);
    destruct Hi as [<-|[]]; destruct Hj as [E|[]]; discriminate E.
Qed.

(** Three one-particle groups, the first and the last touched. *)
Lemma no_moved_with_moved_witness :
  ((2 <= length (Change.groups (Example.touch [0%Z; 2%Z])))%nat /\
   valid_change (length (Space.groups (Example.split_store 2))) (Example.touch [0; 2]) = true /\
   length (Space.groups (Example.split_store 3)) = length (Space.groups (Example.split_store 2)) /\
   Z.of_nat (length (Space.groups (Example.split_store 2))) < 2147483648 /\
   disjoint_groups (Example.split_store 2) /\ disjoint_groups (Example.split_store 3)) /\
  Forall (fun c => forall d1 d2,
            In d1 [0; 2] -> In d2 [0; 2] ->
            In (call_a c)
              (group_of (pick (Example.split_store 2) (Example.split_store 3) (call_spc c)) d1) ->
            In (call_b c)
              (group_of (pick (Example.split_store 2) (Example.split_store 3) (call_spc c)) d2) ->
            False)
    (calls_of (evaluateChange Example.inverse_r (Example.split_store 2) (Example.split_store 3)
                 (Example.touch [0; 2]))).
Proof.
  assert (H1 : (2 <= length (Change.groups (Example.touch [0%Z; 2%Z])))%nat) by (simpl; lia).
  assert (H2 : valid_change (length (Space.groups (Example.split_store 2)))
                 (Example.touch [0; 2]) = true) by reflexivity.
  assert (H3 : length (Space.groups (Example.split_store 3))
               = length (Space.groups (Example.split_store 2))) by reflexivity.
  assert (H4 : Z.of_nat (length (Space.groups (Example.split_store 2))) < 2147483648)
    by (simpl; lia).
  pose proof (disjoint_split_store 2) as H5.
  pose proof (disjoint_split_store 3) as H6.
  split; [repeat split; assumption|].
  exact (proj2 (proj2 (no_moved_with_moved Example.inverse_r (Example.split_store 2)
                         (Example.split_store 3) (Example.touch [0; 2]) H1 H2 H3 H4))
           H5 H6).
Defined.

(** C5, the claim as stated fails: [g2g] of a one-particle group with
    itself calls the pair potential on that particle paired with itself
    and returns its energy. *)
Lemma g2g_evaluates_self_pairs :
  result_of (g2g Example.unit_pot OldSpc [Example.on_axis 2 2] [Example.on_axis 2 2]
               (mkWorld (Example.store 2) (Example.store 3) (Example.touch [1]) []))
  = Some 1%float /\
  calls_of (g2g Example.unit_pot OldSpc [Example.on_axis 2 2] [Example.on_axis 2 2]
              (mkWorld (Example.store 2) (Example.store 3) (Example.touch [1]) []))
  = [mkCall OldSpc (Example.on_axis 2 2) (Example.on_axis 2 2) (mkPoint 0 0 0)].
Proof. split; vm_compute; reflexivity. Qed.

(** C5, amended.  [g2g] excludes nothing: with a group [g] as both
    arguments it calls the pair potential on the whole cross product of
    [g] with itself, [|g| * |g|] pairs, every particle of [g] paired with
    itself among them.  The exclusion is the caller's: for a non-empty
    change set (indices in range, sorted and unique) between two stores
    with the same number of groups, a number that fits an [int], [energy]
    applies [g2g] to index pairs
    whose two members differ, a touched and an untouched one, and makes
    no other call. *)
Theorem self_pairs_left_to_caller (nb : Nonbonded) (r : SpaceRef) (g : Group) (w : World)
    (old new : Space.t) (ch : Change.t) :
  Change.empty ch = false ->
  valid_change (length (Space.groups old)) ch = true ->
  length (Space.groups new) = length (Space.groups old) ->
  Z.of_nat (length (Space.groups old)) < 2147483648 ->
  (calls_of (g2g nb r g g w) = calls w ++ map (pair_call r (space_of r w)) (list_prod g g) /\
   length (list_prod g g) = (length g * length g)%nat /\
   (forall a, In a g -> In (pair_call r (space_of r w) (a, a)) (calls_of (g2g nb r g g w)))) /\
  (calls_of (evaluateChange nb old new ch)
   = flat_map (fun df =>
                 group_calls OldSpc old (group_of old (fst df)) (group_of old (snd df))
                 ++ group_calls NewSpc new (group_of new (fst df)) (group_of new (snd df)))
       (moved_fixed_pairs (Change.touchedGroupIndex ch) (length (Space.groups old))) /\
   Forall (fun df => fst df <> snd df)
     (moved_fixed_pairs (Change.touchedGroupIndex ch) (length (Space.groups old)))).
Proof.
  intros Hne Hv Hlen Hfit. split.
  - assert (Hc : calls_of (g2g nb r g g w)
                 = calls w ++ map (pair_call r (space_of r w)) (list_prod g g))
      by (unfold calls_of; now rewrite g2g_run).
    split; [exact Hc|]. split; [apply length_prod|].
    intros a Ha. rewrite Hc. apply in_or_app. right.
    apply in_map, in_prod; assumption.
  - destruct (evaluateChange_valid nb old new ch Hne Hv Hlen Hfit) as [_ Hcalls].
    split; [exact Hcalls|].
    apply Forall_forall. intros [d f] Hdf.
    apply moved_fixed_pairs_spec in Hdf as (Hd & _ & Hf).
    simpl. intros ->. contradiction.
Qed.

(** The one-particle group of the small system. *)
Lemma self_pairs_left_to_caller_witness :
  (Change.empty (Example.touch [1]) = false /\
   valid_change (length (Space.groups (Example.store 2))) (Example.touch [1]) = true /\
   length (Space.groups (Example.store 3)) = length (Space.groups (Example.store 2)) /\
   Z.of_nat (length (Space.groups (Example.store 2))) < 2147483648) /\
  In (pair_call OldSpc (Example.store 2) (Example.on_axis 2 2, Example.on_axis 2 2))
    (calls_of (g2g Example.unit_pot OldSpc [Example.on_axis 2 2] [Example.on_axis 2 2]
                 (mkWorld (Example.store 2) (Example.store 3) (Example.touch [1]) []))) /\
  Forall (fun df => fst df <> snd df)
    (moved_fixed_pairs (Change.touchedGroupIndex (Example.touch [1]))
       (length (Space.groups (Example.store 2)))).
Proof.
  assert (H1 : Change.empty (Example.touch [1]) = false) by reflexivity.
  assert (H2 : valid_change (length (Space.groups (Example.store 2))) (Example.touch [1]) = true)
    by reflexivity.
  assert (H3 : length (Space.groups (Example.store 3)) = length (Space.groups (Example.store 2)))
    by reflexivity.
  assert (H4 : Z.of_nat (length (Space.groups (Example.store 2))) < 2147483648)
    by (simpl; lia).
  split; [repeat split; assumption|].
  destruct (self_pairs_left_to_caller Example.unit_pot OldSpc [Example.on_axis 2 2]
              (mkWorld (Example.store 2) (Example.store 3) (Example.touch [1]) [])
              (Example.store 2) (Example.store 3) (Example.touch [1]) H1 H2 H3 H4)
    as ((_ & _ & Hself) & _ & Hneq).
  split; [apply Hself; now left | exact Hneq].
Defined.

(** C6, the claim as stated fails.  A change set that lists a group
    twice is evaluated and its energies returned, the group counted twice;
    a change set with an index beyond the group vector runs into the
    unchecked access only after four pair-potential calls have been
    made. *)
Lemma invalid_change_not_rejected :
  (valid_change 2 (Example.touch [1; 1]) = false /\
   result_of (evaluateChange Example.inverse_r (Example.store 2) (Example.store 3)
                (Example.touch [1; 1]))
   = Some (1.5%float, (1 / 3 + 1 / 5 + 1 / 3 + 1 / 5)%float) /\
   ~ rejected (evaluateChange Example.inverse_r (Example.store 2) (Example.store 3)
                 (Example.touch [1; 1]))) /\
  (valid_change 2 (Example.touch [1; 5]) = false /\
   length (calls_of (evaluateChange Example.inverse_r (Example.store 2) (Example.store 3)
                       (Example.touch [1; 5]))) = 4%nat /\
   ~ rejected (evaluateChange Example.inverse_r (Example.store 2) (Example.store 3)
                 (Example.touch [1; 5]))).
Proof.
  split; (split; [reflexivity|]); (split; [vm_compute; reflexivity|]).
  - intros [H _]. vm_compute in H. discriminate H.
  - intros [_ H]. vm_compute in H. discriminate H.
Qed.

(** C6, amended.  [energy] checks nothing about the change set and has no
    path that turns one down.  For every non-empty change set whose
    touched indices are positions of the group vectors of both stores, the
    new vector being no shorter than the old one and the number of groups
    fitting an [int], and whatever the order or the repetitions of those
    indices, it returns an energy pair: the sums of the group-pair
    energies over the touched indices as listed, each paired with the
    indices of the old group vector that the binary search does not find
    among them. *)
Theorem energy_does_not_validate (nb : Nonbonded) (old new : Space.t) (ch : Change.t) :
  Change.empty ch = false ->
  in_range (length (Space.groups old)) (Change.touchedGroupIndex ch) = true ->
  in_range (length (Space.groups new)) (Change.touchedGroupIndex ch) = true ->
  (length (Space.groups old) <= length (Space.groups new))%nat ->
  Z.of_nat (length (Space.groups old)) < 2147483648 ->
  result_of (evaluateChange nb old new ch)
  = Some (fsum (map (term nb old)
                  (list_prod (Change.touchedGroupIndex ch)
                     (fixed_view (Change.touchedGroupIndex ch)
                        (Z.of_nat (length (Space.groups old)))))),
          fsum (map (term nb new)
                  (list_prod (Change.touchedGroupIndex ch)
                     (fixed_view (Change.touchedGroupIndex ch)
                        (Z.of_nat (length (Space.groups old)))))))
  /\ calls_of (evaluateChange nb old new ch)
     = flat_map (step_calls old new)
         (list_prod (Change.touchedGroupIndex ch)
            (fixed_view (Change.touchedGroupIndex ch)
               (Z.of_nat (length (Space.groups old))))).
Proof.
  intros Hne Hold Hnew Hlen Hfit. rewrite <- (int_of_size_fits _ Hfit).
  apply calls_of_evaluateChange.
  apply (energy_run nb (mkWorld old new ch [])); assumption.
Qed.

(** The second group of the small system, listed twice. *)
Lemma energy_does_not_validate_witness :
  (Change.empty (Example.touch [1; 1]) = false /\
   in_range (length (Space.groups (Example.store 2)))
     (Change.touchedGroupIndex (Example.touch [1; 1])) = true /\
   in_range (length (Space.groups (Example.store 3)))
     (Change.touchedGroupIndex (Example.touch [1; 1])) = true /\
   (length (Space.groups (Example.store 2)) <= length (Space.groups (Example.store 3)))%nat /\
   Z.of_nat (length (Space.groups (Example.store 2))) < 2147483648) /\
  sorted_unique (Change.touchedGroupIndex (Example.touch [1; 1])) = false /\
  result_of (evaluateChange Example.inverse_r (Example.store 2) (Example.store 3)
               (Example.touch [1; 1]))
  = Some (1.5%float, (1 / 3 + 1 / 5 + 1 / 3 + 1 / 5)%float).
Proof.
  assert (H1 : Change.empty (Example.touch [1; 1]) = false) by reflexivity.
  assert (H2 : in_range (length (Space.groups (Example.store 2)))
                 (Change.touchedGroupIndex (Example.touch [1; 1])) = true) by reflexivity.
  assert (H3 : in_range (length (Space.groups (Example.store 3)))
                 (Change.touchedGroupIndex (Example.touch [1; 1])) = true) by reflexivity.
  assert (H4 : (length (Space.groups (Example.store 2))
                <= length (Space.groups (Example.store 3)))%nat) by (simpl; lia).
  assert (H5 : Z.of_nat (length (Space.groups (Example.store 2))) < 2147483648)
    by (simpl; lia).
  split; [repeat split; assumption|]. split; [reflexivity|].
  destruct (energy_does_not_validate Example.inverse_r (Example.store 2) (Example.store 3)
              (Example.touch [1; 1]) H1 H2 H3 H4 H5) as [Hres _].
  rewrite Hres. vm_compute. reflexivity.
Defined.

(** C10, the claim as stated fails.  With every touched index smaller
    than the number of groups of each store, and every particle index
    smaller than the size of the particle vector, an access can still lie
    outside its container: [newspc.groups[i]] when the new store has fewer
    groups than the old one, and any access at a negative [int]. *)
Lemma stated_bounds_not_enough :
  (below (length (Space.groups (Example.store 2))) [0] = true /\
   below (length (Space.groups Example.short_store)) [0] = true /\
   result_of (evaluateChange Example.inverse_r (Example.store 2) Example.short_store
                (Example.touch [0])) = None) /\
  (below (length (Space.groups (Example.store 2))) [-1] = true /\
   below (length (Space.groups (Example.store 3))) [-1] = true /\
   result_of (evaluateChange Example.inverse_r (Example.store 2) (Example.store 3)
                (Example.touch [-1])) = None) /\
  (below (length (Space.p (Example.store 2))) [-1] = true /\
   below (length (Space.p (Example.store 2))) [0] = true /\
   result_of (index2index Example.inverse_r OldSpc [-1] [0]
                (mkWorld (Example.store 2) (Example.store 3) (Example.touch [1]) [])) = None).
Proof. repeat split; vm_compute; reflexivity. Qed.

Lemma energy_returns (nb : Nonbonded) (w : World) :
  in_range (length (Space.groups (oldspc w))) (Change.touchedGroupIndex (change w)) = true ->
  in_range (length (Space.groups (newspc w))) (Change.touchedGroupIndex (change w)) = true ->
  (length (Space.groups (oldspc w)) <= length (Space.groups (newspc w)))%nat ->
  exists u, result_of (energy nb w) = Some u.
Proof.
  intros Hold Hnew Hlen. destruct (Change.empty (change w)) eqn:He.
  - exists (0%float, 0%float). unfold result_of, energy. rewrite bind_run.
    unfold read_change. now rewrite He.
  - eexists. unfold result_of. now rewrite energy_run.
Qed.

(** C10, amended.  When every touched index is non-negative and smaller
    than the number of groups of each store, the new store has at least as
    many groups as the old one, and every index of the two index lists is
    non-negative and smaller than the size of the particle vector (the
    number of groups fitting an [int]), every container access is within
    bounds: the lookups [groups[d.index]] and
    [groups[i]] of every index pair [energy] visits find a group in both
    stores and [energy] returns a result, the accesses [p[i]] and [p[j]]
    find a particle and [index2index] returns a result. *)
Theorem accesses_within_bounds (nb : Nonbonded) (w : World) (r : SpaceRef)
    (index1 index2 : Tindex) :
  in_range (length (Space.groups (oldspc w))) (Change.touchedGroupIndex (change w)) = true ->
  in_range (length (Space.groups (newspc w))) (Change.touchedGroupIndex (change w)) = true ->
  (length (Space.groups (oldspc w)) <= length (Space.groups (newspc w)))%nat ->
  Z.of_nat (length (Space.groups (oldspc w))) < 2147483648 ->
  in_range (length (Space.p (space_of r w))) index1 = true ->
  in_range (length (Space.p (space_of r w))) index2 = true ->
  (Forall (fun df =>
             at_index (Space.groups (oldspc w)) (fst df) <> None /\
             at_index (Space.groups (oldspc w)) (snd df) <> None /\
             at_index (Space.groups (newspc w)) (fst df) <> None /\
             at_index (Space.groups (newspc w)) (snd df) <> None)
     (visited (oldspc w) (change w)) /\
   exists u, result_of (energy nb w) = Some u) /\
  (Forall (fun i => at_index (Space.p (space_of r w)) i <> None) (index1 ++ index2) /\
   exists u, result_of (index2index nb r index1 index2 w) = Some u).
Proof.
  intros Hold Hnew Hlen _ H1 H2. split; split.
  - rewrite in_range_spec in Hold, Hnew.
    apply Forall_forall. intros [d f] Hdf. unfold visited in Hdf.
    apply in_prod_iff in Hdf as [Hd Hf]. apply In_fixed_view in Hf.
    specialize (Hold d Hd). specialize (Hnew d Hd). simpl.
    rewrite !at_index_None. lia.
  - now apply energy_returns.
  - rewrite in_range_spec in H1, H2.
    apply Forall_forall. intros i Hi. rewrite at_index_None.
    apply in_app_or in Hi as [Hi|Hi]; [specialize (H1 i Hi) | specialize (H2 i Hi)]; lia.
  - destruct (indexes_exists _ _ H1) as [g1 Hg1].
    destruct (indexes_exists _ _ H2) as [g2 Hg2].
    unfold index2index.
    rewrite (index_outer_loop nb r w index1 index2 g1 g2 Hg1 Hg2) by auto with world.
    fold (g2g nb r g1 g2). eexists. unfold result_of. now rewrite g2g_run.
Qed.

(** The small system, its second group touched. *)
Lemma accesses_within_bounds_witness :
  (in_range (length (Space.groups (Example.store 2))) [1] = true /\
   in_range (length (Space.groups (Example.store 3))) [1] = true /\
   (length (Space.groups (Example.store 2)) <= length (Space.groups (Example.store 3)))%nat /\
   Z.of_nat (length (Space.groups (Example.store 2))) < 2147483648 /\
   in_range (length (Space.p (Example.store 2))) [0; 1] = true /\
   in_range (length (Space.p (Example.store 2))) [2] = true) /\
  (exists u, result_of (energy Example.inverse_r
                          (mkWorld (Example.store 2) (Example.store 3) (Example.touch [1]) []))
             = Some u) /\
  (exists u, result_of (index2index Example.inverse_r OldSpc [0; 1] [2]
                          (mkWorld (Example.store 2) (Example.store 3) (Example.touch [1]) []))
             = Some u).
Proof.
  assert (H1 : in_range (length (Space.groups (Example.store 2))) [1] = true) by reflexivity.
  assert (H2 : in_range (length (Space.groups (Example.store 3))) [1] = true) by reflexivity.
  assert (H3 : (length (Space.groups (Example.store 2))
                <= length (Space.groups (Example.store 3)))%nat) by (simpl; lia).
  assert (Hfit : Z.of_nat (length (Space.groups (Example.store 2))) < 2147483648)
    by (simpl; lia).
  assert (H4 : in_range (length (Space.p (Example.store 2))) [0; 1] = true) by reflexivity.
  assert (H5 : in_range (length (Space.p (Example.store 2))) [2] = true) by reflexivity.
  split; [repeat split; assumption|].
  destruct (accesses_within_bounds Example.inverse_r
              (mkWorld (Example.store 2) (Example.store 3) (Example.touch [1]) [])
              OldSpc [0; 1] [2] H1 H2 H3 Hfit H4 H5) as [[_ He] [_ Hi]].
  split; assumption.
Defined.

(** ** Beyond the claims: faults of the evaluator *)

Lemma group_at_eq (r : SpaceRef) (i : Z) (w : World) :
  group_at r i w = (at_index (Space.groups (space_of r w)) i, w).
Proof.
  unfold group_at, bind, read_space.
  now destruct (at_index (Space.groups (space_of r w)) i).
Qed.

Lemma particle_at_eq (r : SpaceRef) (i : Z) (w : World) :
  particle_at r i w = (at_index (Space.p (space_of r w)) i, w).
Proof.
  unfold particle_at, bind, read_space.
  now destruct (at_index (Space.p (space_of r w)) i).
Qed.

Lemma forallb_list_prod {A B : Type} (ok : A * B -> bool) (l1 : list A) (l2 : list B) :
  forallb (fun a => forallb (fun b => ok (a, b)) l2) l1 = forallb ok (list_prod l1 l2).
Proof.
  induction l1 as [|a l1 IH]; simpl; [reflexivity|].
  rewrite forallb_app, IH. f_equal.
  clear IH; induction l2 as [|b l2 IH2]; simpl; [reflexivity | now rewrite IH2].
Qed.

(** A loop whose body, on every element, either returns [f s a] or
    faults, as [ok a] tells: the loop returns the fold when every element
    is fine and faults otherwise; either way it only adds calls. *)
Lemma for_each_result {A S : Type} (w0 : World) (l : list A) (body : A -> S -> M S)
    (ok : A -> bool) (f : S -> A -> S) :
  (forall a s w, In a l -> same_objects w0 w ->
     exists tr, body a s w = ((if ok a then Some (f s a) else None), record w tr)) ->
  forall s w, same_objects w0 w ->
    exists tr, for_each l body s w
               = ((if forallb ok l then Some (fold_left f l s) else None), record w tr).
Proof.
  induction l as [|a l IH]; intros Hbody s w Hw; simpl.
  - exists []. unfold ret. now rewrite record_nil.
  - destruct (Hbody a s w (or_introl eq_refl) Hw) as [tr E].
    rewrite bind_run, E. destruct (ok a); simpl.
    + destruct (IH (fun a' s' w' Hin => Hbody a' s' w' (or_intror Hin))
                  (f s a) (record w tr)) as [tr' E']; [auto with world|].
      exists (tr ++ tr'). now rewrite E', record_record.
    + now exists tr.
Qed.

Lemma moved_static_result (nb : Nonbonded) (d i : Z) (u : float * float) (w : World) :
  exists tr,
    moved_static nb d i u w
    = ((if pair_ok (oldspc w) (newspc w) (d, i)
        then Some ((fst u + term nb (oldspc w) (d, i))%float,
                   (snd u + term nb (newspc w) (d, i))%float)
        else None),
       record w tr).
Proof.
  unfold moved_static, pair_ok, term, group_of. cbn [fst snd].
  rewrite bind_run, group_at_eq. cbn [space_of].
  destruct (at_index (Space.groups (oldspc w)) d) as [gd|];
    [|exists []; now rewrite record_nil].
  rewrite bind_run, group_at_eq. cbn [space_of].
  destruct (at_index (Space.groups (oldspc w)) i) as [gi|];
    [|exists []; now rewrite record_nil].
  rewrite bind_run, g2g_run, bind_run, group_at_eq. cbn [space_of record newspc oldspc].
  destruct (at_index (Space.groups (newspc w)) d) as [gd'|]; [|now eexists].
  rewrite bind_run, group_at_eq. cbn [space_of record newspc oldspc].
  destruct (at_index (Space.groups (newspc w)) i) as [gi'|]; [|now eexists].
  rewrite bind_run, g2g_run. unfold ret. cbn [space_of record newspc oldspc is_some andb].
  rewrite record_record. now eexists.
Qed.

(** [energy] in full: it returns the two sums over the visited index
    pairs when every group lookup of every visited pair finds a group, and
    faults otherwise. *)
Lemma energy_result (nb : Nonbonded) (w : World) :
  exists tr,
    energy nb w
    = ((if forallb (pair_ok (oldspc w) (newspc w)) (visited (oldspc w) (change w))
        then Some (fsum (map (term nb (oldspc w)) (visited (oldspc w) (change w))),
                   fsum (map (term nb (newspc w)) (visited (oldspc w) (change w))))
        else None),
       record w tr).
Proof.
  unfold energy. rewrite bind_run. unfold read_change.
  destruct (Change.empty (change w)) eqn:He.
  - exists []. unfold visited, Change.touchedGroupIndex.
    unfold Change.empty in He. destruct (Change.groups (change w)); [|discriminate].
    simpl. unfold ret. now rewrite record_nil.
  - rewrite bind_run. unfold read_space. cbn [space_of].
    unfold visited. set (fixed := fixed_view _ _).
    rewrite (for_each_map Change.index (Change.groups (change w))
               (fun d u => for_each fixed (fun i u => moved_static nb d i u) u)).
    fold (Change.touchedGroupIndex (change w)).
    rewrite <- (forallb_list_prod (pair_ok (oldspc w) (newspc w))).
    replace (fsum (map (term nb (oldspc w)) (list_prod (Change.touchedGroupIndex (change w)) fixed)),
             fsum (map (term nb (newspc w)) (list_prod (Change.touchedGroupIndex (change w)) fixed)))
      with (fold_left (fun u df => ((fst u + term nb (oldspc w) df)%float,
                                    (snd u + term nb (newspc w) df)%float))
              (list_prod (Change.touchedGroupIndex (change w)) fixed) (0%float, 0%float))
      by (now rewrite fold_left_pair).
    rewrite <- (fold_left_list_prod
                  (fun u df => ((fst u + term nb (oldspc w) df)%float,
                                (snd u + term nb (newspc w) df)%float))).
    apply (for_each_result w); [|apply same_objects_refl].
    intros d u w1 _ Hw1.
    apply (for_each_result w); [|assumption].
    intros i u' w2 _ (Ho & Hn & _).
    destruct (moved_static_result nb d i u' w2) as [tr E].
    exists tr. rewrite E. now rewrite Ho, Hn.
Qed.

Lemma visited_fits (old : Space.t) (ch : Change.t) :
  Z.of_nat (length (Space.groups old)) < 2147483648 ->
  visited old ch
  = list_prod (Change.touchedGroupIndex ch)
      (fixed_view (Change.touchedGroupIndex ch) (Z.of_nat (length (Space.groups old)))).
Proof. intros Hfit. unfold visited. now rewrite int_of_size_fits. Qed.

Lemma is_some_false {A : Type} (o : option A) : is_some o = false <-> o = None.
Proof. destruct o; simpl; split; congruence. Qed.

Lemma In_fixed_view_fits (moved : list Z) (n : nat) (i : Z) :
  In i (fixed_view moved (Z.of_nat n)) -> 0 <= i < Z.of_nat n.
Proof. unfold fixed_view. rewrite filter_In, In_ints. tauto. Qed.

(** X1.  [energy] runs into an access outside a group vector exactly when
    some touched index [d] and some index [i] of the static view are
    paired and [d] is not a position of the old group vector, or [d] or
    [i] is not a position of the new one.  With no touched group or an
    empty static view nothing is looked up and nothing can fault. *)
Theorem energy_faults_exactly (nb : Nonbonded) (old new : Space.t) (ch : Change.t) :
  Z.of_nat (length (Space.groups old)) < 2147483648 ->
  (result_of (evaluateChange nb old new ch) = None
   <-> exists d i,
         In d (Change.touchedGroupIndex ch) /\
         In i (fixed_view (Change.touchedGroupIndex ch) (Z.of_nat (length (Space.groups old)))) /\
         (at_index (Space.groups old) d = None \/
          at_index (Space.groups new) d = None \/
          at_index (Space.groups new) i = None)).
Proof.
  intros Hfit. unfold result_of, evaluateChange.
  destruct (energy_result nb (mkWorld old new ch [])) as [tr E]. rewrite E.
  cbn [fst oldspc newspc change]. rewrite (visited_fits old ch Hfit).
  set (pairs := list_prod _ _).
  destruct (forallb (pair_ok old new) pairs) eqn:Hok.
  - split; [discriminate|]. intros (d & i & Hd & Hi & Hbad). exfalso.
    rewrite forallb_forall in Hok.
    specialize (Hok (d, i) (in_prod _ _ _ _ Hd Hi)).
    unfold pair_ok in Hok. cbn [fst snd] in Hok.
    rewrite !andb_true_iff in Hok. destruct Hok as [[[H1 H2] H3] H4].
    destruct Hbad as [Hb|[Hb|Hb]]; rewrite Hb in *; discriminate.
  - split; [intros _|reflexivity].
    assert (Hex : exists df, In df pairs /\ pair_ok old new df = false).
    { clear E. induction pairs as [|df l IH]; [discriminate|].
      simpl in Hok. apply andb_false_iff in Hok as [H|H].
      - exists df. split; [now left | assumption].
      - destruct (IH H) as (df' & Hin & Hf). exists df'. split; [now right | assumption]. }
    destruct Hex as ([d i] & Hin & Hf). apply in_prod_iff in Hin as [Hd Hi].
    exists d, i. split; [assumption|]. split; [assumption|].
    unfold pair_ok in Hf. cbn [fst snd] in Hf.
    destruct (at_index_Some (Space.groups old) i (In_fixed_view_fits _ _ _ Hi)) as [g Hg].
    rewrite Hg in Hf. cbn [is_some] in Hf. rewrite andb_true_r in Hf.
    rewrite !andb_false_iff, !is_some_false in Hf. tauto.
Qed.

Lemma energy_faults_exactly_witness :
  Z.of_nat (length (Space.groups (Example.store 2))) < 2147483648 /\
  result_of (evaluateChange Example.inverse_r (Example.store 2) Example.short_store
               (Example.touch [0])) = None.
Proof.
  assert (Hfit : Z.of_nat (length (Space.groups (Example.store 2))) < 2147483648)
    by (simpl; lia).
  split; [exact Hfit|].
  apply (proj2 (energy_faults_exactly Example.inverse_r (Example.store 2) Example.short_store
                  (Example.touch [0]) Hfit)).
  exists 0, 1. split; [now left|]. split; [now left|]. right. right. reflexivity.
Defined.

Lemma filter_none {A : Type} (f : A -> bool) (l : list A) :
  (forall a, In a l -> f a = false) -> filter f l = [].
Proof.
  induction l as [|a l IH]; intros H; simpl; [reflexivity|].
  rewrite (H a (or_introl eq_refl)). apply IH. intros b Hb. apply H. now right.
Qed.

Lemma for_each_no_inner {A B S : Type} (l : list A) (body : A -> B -> S -> M S)
    (s : S) (w : World) :
  for_each l (fun a u => for_each [] (body a) u) s w = (Some s, w).
Proof. induction l as [|a l IH]; simpl; [reflexivity | now rewrite bind_run]. Qed.

(** X2.  When the sorted touched indices cover every position of the old
    group vector, so that no group is left static, [energy] returns
    [(0, 0)] without a single pair-potential call and without looking up a
    group: whatever the new store holds, and whatever further indices the
    change set lists. *)
Theorem energy_no_static_group (nb : Nonbonded) (old new : Space.t) (ch : Change.t) :
  sorted (Change.touchedGroupIndex ch) = true ->
  (forall i, 0 <= i < Z.of_nat (length (Space.groups old)) ->
             In i (Change.touchedGroupIndex ch)) ->
  Z.of_nat (length (Space.groups old)) < 2147483648 ->
  evaluateChange nb old new ch = (Some (0%float, 0%float), mkWorld old new ch []).
Proof.
  intros Hs Hall Hfit. unfold evaluateChange, energy.
  rewrite bind_run. unfold read_change. cbn [change].
  destruct (Change.empty ch); [reflexivity|].
  rewrite bind_run. unfold read_space. cbn [space_of oldspc].
  rewrite (int_of_size_fits _ Hfit).
  assert (Hnil : fixed_view (Change.touchedGroupIndex ch)
                   (Z.of_nat (length (Space.groups old))) = []).
  { apply filter_none. intros i Hi. apply In_ints in Hi.
    apply negb_false_iff, binary_search_spec; auto. }
  rewrite Hnil. apply for_each_no_inner.
Qed.

Lemma energy_no_static_group_witness :
  (sorted (Change.touchedGroupIndex (Example.touch [0; 1; 7])) = true /\
   (forall i, 0 <= i < Z.of_nat (length (Space.groups (Example.store 2))) ->
              In i (Change.touchedGroupIndex (Example.touch [0; 1; 7]))) /\
   Z.of_nat (length (Space.groups (Example.store 2))) < 2147483648) /\
  evaluateChange Example.inverse_r (Example.store 2) Example.short_store
    (Example.touch [0; 1; 7])
  = (Some (0%float, 0%float),
     mkWorld (Example.store 2) Example.short_store (Example.touch [0; 1; 7]) []).
Proof.
  assert (H1 : sorted (Change.touchedGroupIndex (Example.touch [0; 1; 7])) = true)
    by reflexivity.
  assert (H2 : forall i, 0 <= i < Z.of_nat (length (Space.groups (Example.store 2))) ->
                         In i (Change.touchedGroupIndex (Example.touch [0; 1; 7]))).
  { intros i Hi. simpl in Hi. simpl. lia. }
  assert (H3 : Z.of_nat (length (Space.groups (Example.store 2))) < 2147483648)
    by (simpl; lia).
  split; [repeat split; assumption|].
  exact (energy_no_static_group Example.inverse_r (Example.store 2) Example.short_store
           (Example.touch [0; 1; 7]) H1 H2 H3).
Defined.

(** ** Beyond the claims: cost and symmetry *)

Lemma list_sum_prod {A B : Type} (a : A -> nat) (b : B -> nat) (l1 : list A) (l2 : list B) :
  list_sum (map (fun ab => a (fst ab) * b (snd ab))%nat (list_prod l1 l2))
  = (list_sum (map a l1) * list_sum (map b l2))%nat.
Proof.
  induction l1 as [|x l1 IH]; simpl; [reflexivity|].
  rewrite map_app, list_sum_app, IH, map_map. cbn [fst snd].
  rewrite <- (map_map b (fun k => a x * k)%nat), list_sum_scale. lia.
Qed.

(** X3.  For a non-empty change set (indices in range, sorted and unique)
    between two stores with the same number of groups, a number that fits
    an [int], the pair-potential calls [energy] makes for a store number
    the particles of the touched groups times the particles of the
    untouched groups of that store. *)
Theorem energy_call_count (nb : Nonbonded) (old new : Space.t) (ch : Change.t) (r : SpaceRef) :
  Change.empty ch = false ->
  valid_change (length (Space.groups old)) ch = true ->
  length (Space.groups new) = length (Space.groups old) ->
  Z.of_nat (length (Space.groups old)) < 2147483648 ->
  length (calls_for r (calls_of (evaluateChange nb old new ch)))
  = (total_size (pick old new r) (Change.touchedGroupIndex ch)
     * total_size (pick old new r)
         (untouched (Change.touchedGroupIndex ch) (Z.of_nat (length (Space.groups old)))))%nat.
Proof.
  intros Hne Hv Hlen Hfit.
  destruct (evaluateChange_valid nb old new ch Hne Hv Hlen Hfit) as [_ Hcalls].
  rewrite Hcalls, calls_for_steps, length_flat_map.
  unfold moved_fixed_pairs, total_size.
  rewrite <- (list_sum_prod (fun d => length (group_of (pick old new r) d))
                (fun f => length (group_of (pick old new r) f))).
  f_equal. apply map_ext. intros df.
  unfold term_calls. apply length_group_calls.
Qed.

Lemma energy_call_count_witness :
  (Change.empty (Example.touch [0; 2]) = false /\
   valid_change (length (Space.groups (Example.split_store 2))) (Example.touch [0; 2]) = true /\
   length (Space.groups (Example.split_store 3)) = length (Space.groups (Example.split_store 2)) /\
   Z.of_nat (length (Space.groups (Example.split_store 2))) < 2147483648) /\
  length (calls_for NewSpc
            (calls_of (evaluateChange Example.inverse_r (Example.split_store 2)
                         (Example.split_store 3) (Example.touch [0; 2])))) = 2%nat.
Proof.
  assert (H1 : Change.empty (Example.touch [0; 2]) = false) by reflexivity.
  assert (H2 : valid_change (length (Space.groups (Example.split_store 2)))
                 (Example.touch [0; 2]) = true) by reflexivity.
  assert (H3 : length (Space.groups (Example.split_store 3))
               = length (Space.groups (Example.split_store 2))) by reflexivity.
  assert (H4 : Z.of_nat (length (Space.groups (Example.split_store 2))) < 2147483648)
    by (simpl; lia).
  split; [repeat split; assumption|].
  rewrite (energy_call_count Example.inverse_r (Example.split_store 2) (Example.split_store 3)
             (Example.touch [0; 2]) NewSpc H1 H2 H3 H4).
  reflexivity.
Defined.

Lemma forallb_same {A : Type} (f g : A -> bool) (l : list A) :
  (forall a, f a = g a) -> forallb f l = forallb g l.
Proof.
  intros H. induction l as [|a l IH]; simpl; [reflexivity | now rewrite H, IH].
Qed.

Lemma pair_ok_comm (old new : Space.t) (df : Z * Z) :
  pair_ok new old df = pair_ok old new df.
Proof.
  unfold pair_ok.
  destruct (is_some (at_index (Space.groups old) (fst df))),
           (is_some (at_index (Space.groups old) (snd df))),
           (is_some (at_index (Space.groups new) (fst df))),
           (is_some (at_index (Space.groups new) (snd df))); reflexivity.
Qed.

Lemma visited_same_length (s1 s2 : Space.t) (ch : Change.t) :
  length (Space.groups s1) = length (Space.groups s2) -> visited s1 ch = visited s2 ch.
Proof. intros H. unfold visited. now rewrite H. Qed.

(** X4.  Between two stores with the same number of groups, exchanging
    the old and the new store exchanges the two energies, bit for bit, and
    a call faults one way round exactly when it faults the other way
    round. *)
Theorem energy_exchange_stores (nb : Nonbonded) (old new : Space.t) (ch : Change.t) :
  length (Space.groups new) = length (Space.groups old) ->
  result_of (evaluateChange nb new old ch)
  = option_map swap (result_of (evaluateChange nb old new ch)).
Proof.
  intros Hlen. unfold result_of, evaluateChange.
  destruct (energy_result nb (mkWorld new old ch [])) as [tr1 E1].
  destruct (energy_result nb (mkWorld old new ch [])) as [tr2 E2].
  rewrite E1, E2. cbn [fst oldspc newspc change].
  rewrite (visited_same_length new old ch Hlen).
  rewrite (forallb_same _ _ _ (pair_ok_comm old new)).
  now destruct (forallb (pair_ok old new) (visited old ch)).
Qed.

Lemma energy_exchange_stores_witness :
  length (Space.groups (Example.store 3)) = length (Space.groups (Example.store 2)) /\
  result_of (evaluateChange Example.inverse_r (Example.store 3) (Example.store 2)
               (Example.touch [1]))
  = Some ((1 / 3 + 1 / 5)%float, 0.75%float).
Proof.
  assert (H : length (Space.groups (Example.store 3)) = length (Space.groups (Example.store 2)))
    by reflexivity.
  split; [exact H|].
  rewrite (energy_exchange_stores Example.inverse_r (Example.store 2) (Example.store 3)
             (Example.touch [1]) H).
  vm_compute. reflexivity.
Defined.

Lemma term_same_groups (nb : Nonbonded) (s1 s2 : Space.t) (df : Z * Z) :
  Space.groups s1 = Space.groups s2 -> Space.vdist s1 = Space.vdist s2 ->
  term nb s1 df = term nb s2 df.
Proof.
  destruct s1 as [v1 p1 g1], s2 as [v2 p2 g2]. simpl. intros -> ->. reflexivity.
Qed.

Lemma pair_ok_same_groups (o1 n1 o2 n2 : Space.t) (df : Z * Z) :
  Space.groups o1 = Space.groups o2 -> Space.groups n1 = Space.groups n2 ->
  pair_ok o1 n1 df = pair_ok o2 n2 df.
Proof. unfold pair_ok. now intros -> ->. Qed.

(** X5.  [energy] reads the group vectors and the geometry of the two
    stores and the indices of the touched groups, and nothing else: two
    calls whose stores hold the same groups under the same [geo.vdist]
    and whose change sets list the same touched indices return the same
    result, whatever the particle vectors [p] hold and whatever particle
    indices the change sets record inside the touched groups. *)
Theorem energy_reads_groups_only (nb : Nonbonded) (w1 w2 : World) :
  Change.touchedGroupIndex (change w1) = Change.touchedGroupIndex (change w2) ->
  Space.groups (oldspc w1) = Space.groups (oldspc w2) ->
  Space.vdist (oldspc w1) = Space.vdist (oldspc w2) ->
  Space.groups (newspc w1) = Space.groups (newspc w2) ->
  Space.vdist (newspc w1) = Space.vdist (newspc w2) ->
  result_of (energy nb w1) = result_of (energy nb w2).
Proof.
  intros Ht Hgo Hvo Hgn Hvn. unfold result_of.
  destruct (energy_result nb w1) as [tr1 E1].
  destruct (energy_result nb w2) as [tr2 E2].
  rewrite E1, E2. cbn [fst].
  assert (Hvis : visited (oldspc w1) (change w1) = visited (oldspc w2) (change w2))
    by (unfold visited; now rewrite Ht, Hgo).
  rewrite Hvis.
  rewrite (forallb_same _ _ _ (fun df => pair_ok_same_groups _ _ _ _ df Hgo Hgn)).
  rewrite (map_ext _ _ (fun df => term_same_groups nb _ _ df Hgo Hvo)).
  rewrite (map_ext _ _ (fun df => term_same_groups nb _ _ df Hgn Hvn)).
  reflexivity.
Qed.

Lemma energy_reads_groups_only_witness :
  result_of (energy Example.inverse_r
               (mkWorld (Example.store 2) (Example.store 3) (Example.touch [1]) []))
  = result_of (energy Example.inverse_r
                 (mkWorld (Space.mk Example.minus [] (Space.groups (Example.store 2)))
                    (Space.mk Example.minus [Example.on_axis 9 9]
                       (Space.groups (Example.store 3)))
                    (Change.mk [Change.mkData 1 [0; 5]]) [])).
Proof.
  apply (energy_reads_groups_only Example.inverse_r
           (mkWorld (Example.store 2) (Example.store 3) (Example.touch [1]) [])
           (mkWorld (Space.mk Example.minus [] (Space.groups (Example.store 2)))
              (Space.mk Example.minus [Example.on_axis 9 9] (Space.groups (Example.store 3)))
              (Change.mk [Change.mkData 1 [0; 5]]) []));
    reflexivity.
Defined.

(** ** Beyond the claims: faults of [index2index] *)

Lemma index_body_result (nb : Nonbonded) (r : SpaceRef) (i j : Z) (u : float) (w : World) :
  exists tr,
    (a <- particle_at r i ;; b <- particle_at r j ;;
     e <- i2i nb r a b ;; ret (u + e)%float) w
    = ((if index_ok (space_of r w) (i, j)
        then Some (match at_index (Space.p (space_of r w)) i,
                         at_index (Space.p (space_of r w)) j with
                   | Some a, Some b => (u + pair_energy nb (space_of r w) (a, b))%float
                   | _, _ => u
                   end)
        else None),
       record w tr).
Proof.
  unfold index_ok. cbn [fst snd].
  rewrite bind_run, particle_at_eq.
  destruct (at_index (Space.p (space_of r w)) i) as [a|];
    [|exists []; now rewrite record_nil].
  rewrite bind_run, particle_at_eq.
  destruct (at_index (Space.p (space_of r w)) j) as [b|];
    [|exists []; now rewrite record_nil].
  rewrite bind_run, i2i_run. unfold ret. now eexists.
Qed.

Lemma index2index_result (nb : Nonbonded) (r : SpaceRef) (index1 index2 : Tindex) (w : World) :
  exists u tr,
    index2index nb r index1 index2 w
    = ((if forallb (index_ok (space_of r w)) (list_prod index1 index2)
        then Some u else None),
       record w tr).
Proof.
  unfold index2index. rewrite <- (forallb_list_prod (index_ok (space_of r w))).
  destruct (for_each_result w index1
              (fun i u => for_each index2 (fun j u =>
                 a <- particle_at r i ;; b <- particle_at r j ;;
                 e <- i2i nb r a b ;; ret (u + e)%float) u)
              (fun i => forallb (fun j => index_ok (space_of r w) (i, j)) index2)
              (fun u i => fold_left (fun u j =>
                 match at_index (Space.p (space_of r w)) i,
                       at_index (Space.p (space_of r w)) j with
                 | Some a, Some b => (u + pair_energy nb (space_of r w) (a, b))%float
                 | _, _ => u
                 end) index2 u)) with (s := 0%float) (w := w) as [tr E].
  - intros i u w1 _ Hw1.
    apply (for_each_result w); [|assumption].
    intros j u' w2 _ Hw2.
    destruct (index_body_result nb r i j u' w2) as [tr E].
    exists tr. rewrite E. now rewrite (space_of_same w w2 r Hw2).
  - apply same_objects_refl.
  - eexists. exists tr. exact E.
Qed.

(** X6.  [index2index] runs into an access outside the particle vector
    exactly when both index lists are non-empty and one of their indices
    is not a position of [spc.p].  When either list is empty no particle
    is looked up, so indices out of range in the other list go unnoticed. *)
Theorem index2index_faults_exactly (nb : Nonbonded) (r : SpaceRef) (index1 index2 : Tindex)
    (w : World) :
  result_of (index2index nb r index1 index2 w) = None
  <-> index1 <> [] /\ index2 <> [] /\
      exists k, In k (index1 ++ index2) /\ at_index (Space.p (space_of r w)) k = None.
Proof.
  destruct (index2index_result nb r index1 index2 w) as (u & tr & E).
  unfold result_of. rewrite E. cbn [fst].
  destruct (forallb (index_ok (space_of r w)) (list_prod index1 index2)) eqn:Hok.
  - split; [discriminate|]. intros (H1 & H2 & k & Hk & Hnone). exfalso.
    rewrite forallb_forall in Hok.
    destruct index1 as [|i0 index1]; [congruence|].
    destruct index2 as [|j0 index2]; [congruence|].
    apply in_app_or in Hk as [Hk|Hk].
    + specialize (Hok (k, j0) (in_prod _ _ _ _ Hk (in_eq j0 index2))).
      unfold index_ok in Hok. cbn [fst snd] in Hok. rewrite Hnone in Hok. discriminate.
    + specialize (Hok (i0, k) (in_prod _ _ _ _ (in_eq i0 index1) Hk)).
      unfold index_ok in Hok. cbn [fst snd] in Hok. rewrite Hnone in Hok.
      rewrite andb_false_r in Hok. discriminate.
  - split; [intros _|reflexivity].
    assert (Hex : exists ij, In ij (list_prod index1 index2)
                             /\ index_ok (space_of r w) ij = false).
    { clear E. induction (list_prod index1 index2) as [|ij l IH]; [discriminate|].
      simpl in Hok. apply andb_false_iff in Hok as [H|H].
      - exists ij. split; [now left | assumption].
      - destruct (IH H) as (ij' & Hin & Hf). exists ij'. split; [now right | assumption]. }
    destruct Hex as ([i j] & Hin & Hf). apply in_prod_iff in Hin as [Hi Hj].
    split; [intros ->; contradiction|]. split; [intros ->; contradiction|].
    unfold index_ok in Hf. cbn [fst snd] in Hf.
    rewrite andb_false_iff, !is_some_false in Hf.
    destruct Hf as [Hf|Hf]; [exists i | exists j]; (split; [apply in_or_app; tauto | assumption]).
Qed.

(** ** Beyond the claims: atom names *)

Lemma find_if_nil {A : Type} (pred : A -> bool) (rng : list A) :
  find_if pred rng = [] <-> forall a, In a rng -> pred a = false.
Proof.
  induction rng as [|b rng IH]; simpl.
  - split; [intros _ a [] | reflexivity].
  - destruct (pred b) eqn:Hb.
    + split; [discriminate|]. intros H. specialize (H b (or_introl eq_refl)). congruence.
    + rewrite IH. split.
      * intros H a [<-|Ha]; auto.
      * intros H a Ha. apply H. now right.
Qed.

Lemma find_if_first {A : Type} (pred : A -> bool) (rng : list A) (a : A) (rest : list A) :
  find_if pred rng = a :: rest
  <-> exists before,
        rng = before ++ a :: rest /\ pred a = true /\ Forall (fun b => pred b = false) before.
Proof.
  induction rng as [|b rng IH]; simpl.
  - split; [discriminate|]. intros (before & E & _). now destruct before.
  - destruct (pred b) eqn:Hb.
    + split.
      * intros [= -> ->]. exists []. repeat split; [assumption | constructor].
      * intros ([|c before] & E & Ha & Hbefore).
        -- simpl in E. congruence.
        -- simpl in E. injection E as -> _.
           apply Forall_inv in Hbefore. congruence.
    + rewrite IH. split.
      * intros (before & -> & Ha & Hbefore). exists (b :: before).
        repeat split; [assumption | now constructor].
      * intros ([|c before] & E & Ha & Hbefore).
        -- simpl in E. injection E as -> _. congruence.
        -- simpl in E. injection E as -> ->. exists before.
           repeat split; [assumption | now apply Forall_inv_tail in Hbefore].
Qed.

Lemma name_eqb_false (a : AtomData.t) (n : string) :
  String.eqb (AtomData.name a) n = false <-> AtomData.name a <> n.
Proof. apply String.eqb_neq. Qed.

Lemma findName_first_named (rng : list AtomData.t) (n : string) (a : AtomData.t)
    (rest : list AtomData.t) :
  findName rng n = a :: rest
  <-> exists before,
        rng = before ++ a :: rest /\ AtomData.name a = n /\
        Forall (fun b => AtomData.name b <> n) before.
Proof.
  unfold findName. rewrite find_if_first. split; intros (before & E & Ha & Hb);
    exists before; (split; [exact E|]); split.
  - now apply String.eqb_eq.
  - eapply Forall_impl; [|exact Hb]. intros b. apply name_eqb_false.
  - now apply String.eqb_eq.
  - eapply Forall_impl; [|exact Hb]. intros b. apply name_eqb_false.
Qed.

Lemma findName_nil (rng : list AtomData.t) (n : string) :
  findName rng n = [] <-> forall a, In a rng -> AtomData.name a <> n.
Proof.
  unfold findName. rewrite find_if_nil. split; intros H a Ha; apply name_eqb_false; auto.
Qed.

(** X7.  [findName] returns the end iterator exactly when no element of
    the range has the name, and otherwise the iterator to the first
    element that has it: every element before it has another name, so of
    several elements of one name the first is found. *)
Theorem findName_first (rng : list AtomData.t) (n : string) :
  (findName rng n = [] <-> forall a, In a rng -> AtomData.name a <> n) /\
  (forall a rest,
     findName rng n = a :: rest
     <-> exists before,
           rng = before ++ a :: rest /\ AtomData.name a = n /\
           Forall (fun b => AtomData.name b <> n) before).
Proof. split; [apply findName_nil | intros a rest; apply findName_first_named]. Qed.

Lemma first_named_findName (rng : list AtomData.t) (n : string) (a : AtomData.t) :
  first_named rng n a <-> exists rest, findName rng n = a :: rest.
Proof.
  unfold first_named. split.
  - intros (before & after & E & Ha & Hb). exists after.
    apply findName_first_named. now exists before.
  - intros (rest & E). apply findName_first_named in E as (before & E & Ha & Hb).
    now exists before, rest.
Qed.

Lemma known_findName (rng : list AtomData.t) (n : string) :
  known rng n = false <-> findName rng n = [].
Proof.
  unfold known, findName. rewrite find_if_nil. split.
  - intros H a Ha. destruct (String.eqb (AtomData.name a) n) eqn:E; [|reflexivity].
    assert (existsb (fun i => String.eqb (AtomData.name i) n) rng = true)
      by (apply existsb_exists; now exists a).
    congruence.
  - intros H. destruct (existsb _ rng) eqn:E; [|reflexivity].
    apply existsb_exists in E as (a & Ha & Ea). rewrite (H a Ha) in Ea. discriminate.
Qed.

Lemma star_eqb_false (n : string) (names : list string) :
  ~ In "*"%string (n :: names) -> String.eqb n "*" = false /\ ~ In "*"%string names.
Proof.
  intros H. split.
  - apply String.eqb_neq. intros ->. apply H. now left.
  - intros Hin. apply H. now right.
Qed.

(** The loop without a wildcard among the remaining names. *)
Lemma names2ids_loop_returned (rng : list AtomData.t) (names : list string) :
  ~ In "*"%string names ->
  forall index out,
    names2ids_loop rng names index = Returned out
    <-> exists ids,
          out = index ++ ids /\
          Forall2 (fun n i => exists a, first_named rng n a /\ AtomData.id a = i) names ids.
Proof.
  induction names as [|n names IH]; intros Hstar index out; simpl.
  - split.
    + intros [= <-]. exists []. split; [now rewrite app_nil_r | constructor].
    + intros (ids & -> & H). inversion H. now rewrite app_nil_r.
  - apply star_eqb_false in Hstar as [-> Hstar].
    destruct (findName rng n) as [|it rest] eqn:Efind.
    + split; [discriminate|].
      intros (ids & _ & H). inversion H as [|? i ? ids' (a & Ha & _) _]; subst.
      apply first_named_findName in Ha as (rest & Ea). congruence.
    + rewrite (IH Hstar). split.
      * intros (ids & -> & H). exists (AtomData.id it :: ids).
        split; [now rewrite <- app_assoc|].
        constructor; [|assumption]. exists it. split; [|reflexivity].
        apply first_named_findName. now exists rest.
      * intros (ids & -> & H). inversion H as [|? i ? ids' (a & Ha & Hi) Hrest]; subst.
        apply first_named_findName in Ha as (rest' & Ea).
        rewrite Efind in Ea. injection Ea as <- _.
        exists ids'. split; [now rewrite <- app_assoc | assumption].
Qed.

(** X8.  For names without the wildcard, [names2ids] returns a list of
    ids exactly when every name is the name of an element; the list then
    has one id per name, in the order of the names, each the id of the
    first element of that name. *)
Theorem names2ids_returns (rng : list AtomData.t) (names : list string) (ids : list Z) :
  ~ In "*"%string names ->
  (names2ids rng names = Returned ids
   <-> Forall2 (fun n i => exists a, first_named rng n a /\ AtomData.id a = i) names ids).
Proof.
  intros Hstar. unfold names2ids. rewrite (names2ids_loop_returned rng names Hstar).
  split; [intros (ids' & -> & H); exact H | intros H; now exists ids].
Qed.

Lemma names2ids_returns_witness :
  ~ In "*"%string ["Cl"; "Na"]%string /\
  names2ids ExampleAtoms.atoms ["Cl"; "Na"]%string = Returned [7; 5].
Proof.
  assert (Hstar : ~ In "*"%string ["Cl"; "Na"]%string).
  { intros [H|[H|[]]]; discriminate H. }
  split; [exact Hstar|].
  apply (proj2 (names2ids_returns ExampleAtoms.atoms ["Cl"; "Na"]%string [7; 5] Hstar)).
  repeat constructor.
  - exists (ExampleAtoms.atom "Cl" 7). split; [|reflexivity].
    exists [ExampleAtoms.atom "Na" 5], [ExampleAtoms.atom "Na" 9].
    repeat split. constructor; [discriminate | constructor].
  - exists (ExampleAtoms.atom "Na" 5). split; [|reflexivity].
    exists [], [ExampleAtoms.atom "Cl" 7; ExampleAtoms.atom "Na" 9].
    repeat split. constructor.
Defined.

Lemma known_true_findName (rng : list AtomData.t) (n : string) :
  known rng n = true <-> findName rng n <> [].
Proof.
  rewrite <- known_findName. destruct (known rng n); split; congruence.
Qed.

(** The loop throws for the first name that is neither the wildcard nor
    the name of an element, if no wildcard comes before it. *)
Lemma names2ids_loop_thrown (rng : list AtomData.t) (names : list string) :
  forall index what,
    names2ids_loop rng names index = Thrown what
    <-> exists found n rest,
          names = found ++ n :: rest /\
          ~ In "*"%string found /\ n <> "*"%string /\
          forallb (known rng) found = true /\ known rng n = false /\
          what = ("name '" ++ n ++ "' not found")%string.
Proof.
  induction names as [|m names IH]; intros index what; simpl.
  - split; [discriminate|]. intros (found & n & rest & E & _). now destruct found.
  - destruct (String.eqb_spec m "*") as [->|Hm].
    + split; [discriminate|].
      intros ([|f found] & n & rest & E & Hstar & Hn & _); simpl in E; injection E as E1 E2.
      * congruence.
      * subst f. exfalso. apply Hstar. now left.
    + destruct (findName rng m) as [|it after] eqn:Efind.
      * split.
        -- intros [= <-]. exists [], m, names.
           repeat split; [intros [] | assumption | now apply known_findName].
        -- intros ([|f found] & n & rest & E & Hstar & Hn & Hfound & Hkn & ->);
             simpl in E; injection E as E1 E2.
           ++ now subst.
           ++ subst f. simpl in Hfound. apply andb_true_iff in Hfound as [Hk _].
              apply known_true_findName in Hk. contradiction.
      * rewrite IH. split.
        -- intros (found & n & rest & -> & Hstar & Hn & Hfound & Hkn & ->).
           exists (m :: found), n, rest. repeat split; try assumption.
           ++ intros [H|H]; [congruence | contradiction].
           ++ simpl. rewrite Hfound, andb_true_r.
              apply known_true_findName. congruence.
        -- intros ([|f found] & n & rest & E & Hstar & Hn & Hfound & Hkn & ->);
             simpl in E; injection E as E1 E2.
           ++ subst. apply known_findName in Hkn. congruence.
           ++ subst. exists found, n, rest. simpl in Hfound.
              apply andb_true_iff in Hfound as [_ Hfound].
              repeat split; try assumption.
              intros H. apply Hstar. now right.
Qed.

(** X9.  [names2ids] throws exactly when some name that is not the
    wildcard is the name of no element while every name before it is the
    name of an element and none of them is the wildcard; the message is
    [name '<n>' not found] for that first unknown name [n].  A name after
    a wildcard never makes it throw. *)
Theorem names2ids_throws (rng : list AtomData.t) (names : list string) (what : string) :
  names2ids rng names = Thrown what
  <-> exists found n rest,
        names = found ++ n :: rest /\
        ~ In "*"%string found /\ n <> "*"%string /\
        forallb (known rng) found = true /\ known rng n = false /\
        what = ("name '" ++ n ++ "' not found")%string.
Proof. apply names2ids_loop_thrown. Qed.

Lemma to_int_small (v : Z) : -2147483648 <= v < 2147483648 -> to_int v = v.
Proof. intros Hv. unfold to_int. rewrite Z.mod_small; lia. Qed.

Lemma iota_ints (n : nat) (value : Z) :
  -2147483648 <= value -> value + Z.of_nat n <= 2147483648 ->
  iota n value = ints value (value + Z.of_nat n).
Proof.
  unfold ints. replace (Z.to_nat (value + Z.of_nat n - value)) with n by lia.
  revert value. induction n as [|n IH]; intros value Hlo Hhi; [reflexivity|].
  cbn [iota seq map]. f_equal; [lia|].
  destruct n as [|n']; [reflexivity|].
  rewrite to_int_small by lia. rewrite IH by lia.
  rewrite <- seq_shift, map_map. apply map_ext. intros k. lia.
Qed.

Lemma names2ids_loop_wildcard (rng : list AtomData.t) (found rest : list string) :
  ~ In "*"%string found -> forallb (known rng) found = true ->
  forall index,
    names2ids_loop rng (found ++ "*"%string :: rest) index = Returned (iota (length rng) 0).
Proof.
  induction found as [|m found IH]; intros Hstar Hfound index; simpl.
  - reflexivity.
  - apply star_eqb_false in Hstar as [-> Hstar].
    simpl in Hfound. apply andb_true_iff in Hfound as [Hk Hfound].
    apply known_true_findName in Hk.
    destruct (findName rng m) as [|it after]; [congruence|]. now apply IH.
Qed.

(** X10.  When the names hold the wildcard [*] and every name before the
    first wildcard is the name of an element, [names2ids] returns the
    positions [0 .. size-1] of the whole range (for a range whose size
    fits an [int]): the ids collected before the wildcard are dropped,
    the names after it are never looked up, and the result holds
    positions, not the ids of the elements. *)
Theorem names2ids_wildcard (rng : list AtomData.t) (found rest : list string) :
  ~ In "*"%string found ->
  forallb (known rng) found = true ->
  Z.of_nat (length rng) <= 2147483648 ->
  names2ids rng (found ++ "*"%string :: rest) = Returned (ints 0 (Z.of_nat (length rng))).
Proof.
  intros Hstar Hfound Hfit. unfold names2ids.
  rewrite (names2ids_loop_wildcard rng found rest Hstar Hfound).
  f_equal. now rewrite iota_ints by lia.
Qed.

Lemma names2ids_wildcard_witness :
  (~ In "*"%string ["Cl"]%string /\
   forallb (known ExampleAtoms.atoms) ["Cl"]%string = true /\
   Z.of_nat (length ExampleAtoms.atoms) <= 2147483648) /\
  names2ids ExampleAtoms.atoms ["Cl"; "*"; "K"]%string = Returned [0; 1; 2].
Proof.
  assert (H1 : ~ In "*"%string ["Cl"]%string) by (intros [H|[]]; discriminate H).
  assert (H2 : forallb (known ExampleAtoms.atoms) ["Cl"]%string = true) by reflexivity.
  assert (H3 : Z.of_nat (length ExampleAtoms.atoms) <= 2147483648) by (simpl; lia).
  split; [repeat split; assumption|].
  exact (names2ids_wildcard ExampleAtoms.atoms ["Cl"]%string ["K"]%string H1 H2 H3).
Defined.
